(** * genji: order-preserving codec, SELECT planner and INSERT value parser

    A shallow embedding of
    - package [encoding] (the naturally sorted binary codec),
    - [SelectStmt.ToStream] of package [query] (the SELECT planner),
    - [Parser.parseExprListWithFields] of package [parser],
    with the properties the specification states about them. *)

From Stdlib Require Import ZArith Lia List String Ascii Bool DecimalString.
From Stdlib Require Import Floats.SpecFloat.
From coqutil Require Import Byte.
From stdpp Require Import base list.
Import ListNotations.
#[local] Set Warnings "-register-all".
Local Open Scope string_scope.
Local Open Scope list_scope.
Local Open Scope Z_scope.

(** ** Go run-time conventions

    A Go call either returns or panics (index out of range, failed type
    assertion).  [outcome] keeps the two apart; a Go result list
    [(T, error)] is the pair [T * option error], [None] being [nil]. *)

Inductive outcome (A : Type) : Type :=
| Returns (a : A)
| Panics.
Arguments Returns {A} a.
Arguments Panics {A}.

#[global] Instance outcome_ret : MRet outcome := fun _ a => Returns a.
#[global] Instance outcome_bind : MBind outcome := fun _ _ k m =>
  match m with
  | Returns a => k a
  | Panics => Panics
  end.

Abbreviation byte := Init.Byte.byte.

(** [buf[i]] on a slice: panics out of range. *)
Definition index {A : Type} (buf : list A) (i : nat) : outcome A :=
  match buf !! i with
  | Some x => Returns x
  | None => Panics
  end.

(** Unsigned 64-bit wrap-around, and the conversions [uint64(x)] and
    [int64(x)] between the two 64-bit integer types. *)
Definition wrap64 (z : Z) : Z := z mod 2 ^ 64.
Definition to_uint64 (x : Z) : Z := wrap64 x.
Definition to_int64 (u : Z) : Z := (u + 2 ^ 63) mod 2 ^ 64 - 2 ^ 63.

Definition is_uint64 (u : Z) : Prop := 0 <= u < 2 ^ 64.
Definition is_int64 (x : Z) : Prop := - 2 ^ 63 <= x < 2 ^ 63.

Definition MaxInt64 : Z := 2 ^ 63 - 1.
Definition MinInt64 : Z := - 2 ^ 63.

(** [bytes.Compare a b < 0]: lexicographic order on byte strings. *)
Fixpoint bytes_lt (a b : list byte) : bool :=
  match a, b with
  | _, [] => false
  | [], _ :: _ => true
  | x :: a', y :: b' =>
      (byte.unsigned x <? byte.unsigned y)
      || ((byte.unsigned x =? byte.unsigned y) && bytes_lt a' b')
  end.

(** ** Package encoding/binary: [binary.BigEndian] *)
Module BigEndian.

(** [PutUint64(b[:], v)] on [var b [8]byte]: the array it leaves. *)
Definition PutUint64 (v : Z) : list byte :=
  [ byte.of_Z (Z.shiftr v 56); byte.of_Z (Z.shiftr v 48);
    byte.of_Z (Z.shiftr v 40); byte.of_Z (Z.shiftr v 32);
    byte.of_Z (Z.shiftr v 24); byte.of_Z (Z.shiftr v 16);
    byte.of_Z (Z.shiftr v 8); byte.of_Z v ].

(** [Uint64(b)]: starts with the bounds check [_ = b[7]]. *)
Definition Uint64 (b : list byte) : outcome Z :=
  match b with
  | b0 :: b1 :: b2 :: b3 :: b4 :: b5 :: b6 :: b7 :: _ =>
      Returns
        (Z.lor (byte.unsigned b7)
        (Z.lor (Z.shiftl (byte.unsigned b6) 8)
        (Z.lor (Z.shiftl (byte.unsigned b5) 16)
        (Z.lor (Z.shiftl (byte.unsigned b4) 24)
        (Z.lor (Z.shiftl (byte.unsigned b3) 32)
        (Z.lor (Z.shiftl (byte.unsigned b2) 40)
        (Z.lor (Z.shiftl (byte.unsigned b1) 48)
               (Z.shiftl (byte.unsigned b0) 56))))))))
  | _ => Panics
  end.

End BigEndian.

(** ** Go's float64

    A [float64] is carried as its IEEE-754 binary64 bit pattern, which is
    what [math.Float64bits] and [math.Float64frombits] convert from and to.
    Its value, for the comparisons of the language, is the [spec_float] the
    pattern denotes; comparisons are those of the Standard Library
    ([SFleb], [SFltb]). *)

Record float64 : Type := Float64frombits { Float64bits : Z }.

Definition is_float64 (x : float64) : Prop := is_uint64 (Float64bits x).

Definition f64_sign (x : float64) : bool := Z.testbit (Float64bits x) 63.
Definition f64_exponent (x : float64) : Z :=
  Z.land (Z.shiftr (Float64bits x) 52) 2047.
Definition f64_mantissa (x : float64) : Z :=
  Z.land (Float64bits x) (2 ^ 52 - 1).

Definition f64_value (x : float64) : spec_float :=
  let s := f64_sign x in
  let e := f64_exponent x in
  let m := f64_mantissa x in
  if e =? 0 then
    if m =? 0 then S754_zero s else S754_finite s (Z.to_pos m) (-1074)
  else if e =? 2047 then
    if m =? 0 then S754_infinity s else S754_nan
  else S754_finite s (Z.to_pos (m + 2 ^ 52)) (e - 1075).

Definition f64_isNaN (x : float64) : bool :=
  match f64_value x with
  | S754_nan => true
  | _ => false
  end.

(** [a < b] and [x >= 0] on float64. *)
Definition f64_lt (a b : float64) : bool := SFltb (f64_value a) (f64_value b).
Definition f64_ge0 (x : float64) : bool :=
  SFleb (S754_zero false) (f64_value x).

Definition f64_neg_zero : float64 := Float64frombits (2 ^ 63).
Definition f64_pos_zero : float64 := Float64frombits 0.
Definition f64_minus_one : float64 := Float64frombits 0xBFF0000000000000.
Definition f64_one : float64 := Float64frombits 0x3FF0000000000000.


(** ** Values, expressions and streams

    Packages [document], [expr], [stream], [scanner] and [stringutil] are
    used by the planner and the parser but are not among the sources; what
    the two need of them is written down here from the specification. *)

(** Modelled from the spec: the type tags of package document, one per
    variant of Value (Null, Bool, Int64, Double, Text, Blob, Array,
    Document). *)
Inductive ValueType : Type :=
| NullValue | BoolValue | IntegerValue | DoubleValue
| TextValue | BlobValue | ArrayValue | DocumentValue.

(** Modelled from the spec: document.Value, a tagged scalar, array or
    document; its Go fields [Type] and [V] are the tag and the payload. *)
Inductive Value : Type :=
| NullV
| BoolV (b : bool)
| IntegerV (n : Z)
| DoubleV (f : float64)
| TextV (s : string)
| BlobV (b : list byte)
| ArrayV (elems : list Value)
| DocumentV (fields : list (string * Value)).

Definition Value_Type (v : Value) : ValueType :=
  match v with
  | NullV => NullValue
  | BoolV _ => BoolValue
  | IntegerV _ => IntegerValue
  | DoubleV _ => DoubleValue
  | TextV _ => TextValue
  | BlobV _ => BlobValue
  | ArrayV _ => ArrayValue
  | DocumentV _ => DocumentValue
  end.

(** Modelled from the spec: [ValueType.IsNumber], the numeric types being
    Int64 and Double. *)
Definition IsNumber (t : ValueType) : bool :=
  match t with
  | IntegerValue | DoubleValue => true
  | _ => false
  end.

(** Modelled from the spec: a path is a sequence of field names and array
    indices. *)
Inductive PathFragment : Type :=
| FieldName (name : string)
| ArrayIndex (i : Z).

Definition Path : Type := list PathFragment.

(** Modelled from the spec: the expression AST of package expr, with the
    variants the specification lists.  [NamedExpr] is the Go
    [*expr.NamedExpr], [Aggregator] the expressions that implement
    [expr.AggregatorBuilder], [PathExpr] and [Wildcard] the Go [expr.Path]
    and [expr.Wildcard]. *)
Inductive Expr : Type :=
| Literal (v : Value)
| PathExpr (p : Path)
| ParamExpr (name : string)
| Unary (op : string) (e : Expr)
| Binary (op : string) (l r : Expr)
| Function (name : string) (args : list Expr)
| Aggregator (name : string) (arg : Expr)
| KVPairsExpr (pairs : list (string * Expr))
| Wildcard
| NamedExpr (e : Expr) (alias : string).

(** An [expr.AggregatorBuilder] is kept as the expression that is one. *)
Definition AggregatorBuilder : Type := Expr.

(** The type assertions of [pe] to a named expression (giving [ne.Expr])
    and of [e] to an [expr.AggregatorBuilder]. *)
Definition as_NamedExpr (pe : Expr) : option Expr :=
  match pe with
  | NamedExpr e _ => Some e
  | _ => None
  end.

Definition as_AggregatorBuilder (e : Expr) : option AggregatorBuilder :=
  match e with
  | Aggregator _ _ => Some e
  | _ => None
  end.

(** Modelled from the spec: [expr.Walk] visits the expression tree in
    pre-order with a caller callback; the callback returns whether to
    descend.  The callback's captured variables are the state [S]. *)
Fixpoint Walk {S : Type} (fn : Expr -> S -> bool * S) (e : Expr) (s : S) : S :=
  let '(descend, s) := fn e s in
  if descend then
    match e with
    | Unary _ c | Aggregator _ c | NamedExpr c _ => Walk fn c s
    | Binary _ l r => Walk fn r (Walk fn l s)
    | Function _ args =>
        (fix walk_args (l : list Expr) (s : S) : S :=
           match l with
           | [] => s
           | a :: l' => walk_args l' (Walk fn a s)
           end) args s
    | KVPairsExpr pairs =>
        (fix walk_pairs (l : list (string * Expr)) (s : S) : S :=
           match l with
           | [] => s
           | (_, a) :: l' => walk_pairs l' (Walk fn a s)
           end) pairs s
    | Literal _ | PathExpr _ | ParamExpr _ | Wildcard => s
    end
  else s.

(** Modelled from the spec: [expr.Equal] is structural AST equality (same
    variant, same children, same literal payloads). *)
Fixpoint Value_eqb (a b : Value) : bool :=
  match a, b with
  | NullV, NullV => true
  | BoolV x, BoolV y => Bool.eqb x y
  | IntegerV x, IntegerV y => (x =? y)%Z
  | DoubleV x, DoubleV y => (Float64bits x =? Float64bits y)%Z
  | TextV x, TextV y => String.eqb x y
  | BlobV x, BlobV y =>
      (fix eq_bytes (l1 l2 : list byte) : bool :=
         match l1, l2 with
         | [], [] => true
         | c1 :: l1', c2 :: l2' => Byte.eqb c1 c2 && eq_bytes l1' l2'
         | _, _ => false
         end) x y
  | ArrayV x, ArrayV y =>
      (fix eq_elems (l1 l2 : list Value) : bool :=
         match l1, l2 with
         | [], [] => true
         | v1 :: l1', v2 :: l2' => Value_eqb v1 v2 && eq_elems l1' l2'
         | _, _ => false
         end) x y
  | DocumentV x, DocumentV y =>
      (fix eq_fields (l1 l2 : list (string * Value)) : bool :=
         match l1, l2 with
         | [], [] => true
         | (k1, v1) :: l1', (k2, v2) :: l2' =>
             String.eqb k1 k2 && Value_eqb v1 v2 && eq_fields l1' l2'
         | _, _ => false
         end) x y
  | _, _ => false
  end.

Definition PathFragment_eqb (a b : PathFragment) : bool :=
  match a, b with
  | FieldName x, FieldName y => String.eqb x y
  | ArrayIndex i, ArrayIndex j => (i =? j)%Z
  | _, _ => false
  end.

Fixpoint Path_eqb (a b : Path) : bool :=
  match a, b with
  | [], [] => true
  | x :: a', y :: b' => PathFragment_eqb x y && Path_eqb a' b'
  | _, _ => false
  end.

Fixpoint Equal (a b : Expr) : bool :=
  match a, b with
  | Literal x, Literal y => Value_eqb x y
  | PathExpr p, PathExpr q => Path_eqb p q
  | ParamExpr x, ParamExpr y => String.eqb x y
  | Unary o1 e1, Unary o2 e2 => String.eqb o1 o2 && Equal e1 e2
  | Binary o1 l1 r1, Binary o2 l2 r2 =>
      String.eqb o1 o2 && Equal l1 l2 && Equal r1 r2
  | Function n1 a1, Function n2 a2 =>
      String.eqb n1 n2 &&
      (fix eq_args (l1 l2 : list Expr) : bool :=
         match l1, l2 with
         | [], [] => true
         | e1 :: l1', e2 :: l2' => Equal e1 e2 && eq_args l1' l2'
         | _, _ => false
         end) a1 a2
  | Aggregator n1 e1, Aggregator n2 e2 => String.eqb n1 n2 && Equal e1 e2
  | KVPairsExpr p1, KVPairsExpr p2 =>
      (fix eq_pairs (l1 l2 : list (string * Expr)) : bool :=
         match l1, l2 with
         | [], [] => true
         | (k1, e1) :: l1', (k2, e2) :: l2' =>
             String.eqb k1 k2 && Equal e1 e2 && eq_pairs l1' l2'
         | _, _ => false
         end) p1 p2
  | Wildcard, Wildcard => true
  | NamedExpr e1 n1, NamedExpr e2 n2 => Equal e1 e2 && String.eqb n1 n2
  | _, _ => false
  end.

(** Modelled from the spec: the tokens of package scanner that the
    sources name; [ILLEGAL] is the zero value of the type. *)
Inductive Token : Type :=
| ILLEGAL | LPAREN | RPAREN | COMMA
| SELECT | FROM | INTO | VALUES | RETURNING | ASC | DESC.

Definition Token_eqb (a b : Token) : bool :=
  match a, b with
  | ILLEGAL, ILLEGAL | LPAREN, LPAREN | RPAREN, RPAREN | COMMA, COMMA
  | SELECT, SELECT | FROM, FROM | INTO, INTO | VALUES, VALUES
  | RETURNING, RETURNING | ASC, ASC | DESC, DESC => true
  | _, _ => false
  end.

(** Error values: [errors.New], [stringutil.Errorf] with its format and
    arguments as passed, and [base64.CorruptInputError]. *)
Inductive fmt_arg : Type :=
| ArgInt (n : Z)
| ArgExpr (e : Expr)
| ArgType (t : ValueType).

Inductive error : Type :=
| errors_New (msg : string)
| Errorf (format : string) (args : list fmt_arg)
| CorruptInputError (offset : Z).

(** Modelled from the spec: the text [stringutil.Sprintf] gives for the
    verbs the sources use.  [%d] prints an integer in decimal; [%q] prints
    the argument quoted, which is left to [quote]. *)
Section Sprintf.

Variable quote : fmt_arg -> string.

Definition decimal (n : Z) : string :=
  DecimalString.NilZero.string_of_int (Z.to_int n).

Definition verb (c : ascii) (a : fmt_arg) : string :=
  match c, a with
  | "d"%char, ArgInt n => decimal n
  | _, _ => quote a
  end.

Fixpoint Sprintf (format : string) (args : list fmt_arg) : string :=
  match format with
  | EmptyString => EmptyString
  | String "%"%char (String c rest) =>
      match args with
      | a :: args' => (verb c a ++ Sprintf rest args')%string
      | [] => String "%"%char (String c (Sprintf rest []))
      end
  | String c rest => String c (Sprintf rest args)
  end.

Definition Error (e : error) : string :=
  match e with
  | errors_New msg => msg
  | Errorf format args => Sprintf format args
  | CorruptInputError offset =>
      ("illegal base64 data at input byte " ++ decimal offset)%string
  end.

End Sprintf.

(** A call that returns [(T, error)] with [T] unused on error, or panics. *)
Inductive result (A : Type) : Type :=
| Ok (a : A)
| Err (err : error)
| Panic.
Arguments Ok {A} a.
Arguments Err {A} err.
Arguments Panic {A}.

#[global] Instance result_ret : MRet result := fun _ a => Ok a.
#[global] Instance result_bind : MBind result := fun _ _ k m =>
  match m with
  | Ok a => k a
  | Err e => Err e
  | Panic => Panic
  end.

(** The type assertion [v.V.(int64)]. *)
Definition V_int64 (v : Value) : result Z :=
  match v with
  | IntegerV n => Ok n
  | _ => Panic
  end.

(** Modelled from the spec: expr.Environment, a stack frame with the
    current document, the bound parameters and an outer frame. *)
Inductive Environment : Type :=
| Env (doc : option Value) (params : list (string * Value))
      (outer : option Environment).

(** [&expr.Environment{}] *)
Definition empty_Environment : Environment := Env None [] None.

(** ** Package encoding/base64, for an unpadded encoding

    [NewEncoding(alphabet).WithPadding(NoPadding)], non-strict: what
    [Encode], [Decode], [EncodedLen] and [DecodedLen] compute. *)
Module Base64.
Section WithAlphabet.

Variable alphabet : list byte.

Definition encode (v : Z) : byte := nth (Z.to_nat v) alphabet Byte.x00.

(** [decodeMap[c]]: the position of [c] in the alphabet, 0xFF elsewhere. *)
Fixpoint position (c : byte) (l : list byte) (i : Z) : Z :=
match l with
| [] => 255
| x :: l' =>
    if byte.unsigned x =? byte.unsigned c then i else position c l' (i + 1)
end.
Definition decodeMap (c : byte) : Z := position c alphabet 0.

Definition EncodedLen (n : Z) : Z := n / 3 * 4 + (n mod 3 * 8 + 5) / 6.
Definition DecodedLen (n : Z) : Z := n * 6 / 8.

Definition sextet (val : Z) (shift : Z) : byte :=
encode (Z.land (Z.shiftr val shift) 63).

(** [Encode(dst, src)]: the bytes written to [dst], full 3-byte groups
  first, then the remaining one or two bytes without padding. *)
Fixpoint Encode (src : list byte) : list byte :=
match src with
| [] => []
| [s0] =>
    let val := Z.shiftl (byte.unsigned s0) 16 in
    [sextet val 18; sextet val 12]
| [s0; s1] =>
    let val := Z.lor (Z.shiftl (byte.unsigned s0) 16)
                     (Z.shiftl (byte.unsigned s1) 8) in
    [sextet val 18; sextet val 12; sextet val 6]
| s0 :: s1 :: s2 :: rest =>
    let val := Z.lor (Z.lor (Z.shiftl (byte.unsigned s0) 16)
                            (Z.shiftl (byte.unsigned s1) 8))
                     (byte.unsigned s2) in
    [sextet val 18; sextet val 12; sextet val 6; sextet val 0]
      ++ Encode rest
end.

(** The three bytes of a quantum of four 6-bit digits. *)
Definition quantum (d0 d1 d2 d3 : Z) : list byte :=
let val := Z.lor (Z.lor (Z.lor (Z.shiftl d0 18) (Z.shiftl d1 12))
                        (Z.shiftl d2 6)) d3 in
[byte.of_Z (Z.shiftr val 16); byte.of_Z (Z.shiftr val 8);
 byte.of_Z (Z.shiftr val 0)].

(** [Decode(dst, src)] as the loop over [decodeQuantum]: [si] is the
  read position, [dbuf] the digits of the open quantum, [out] the
  bytes written.  Line breaks are skipped, any other byte outside the
  alphabet is corrupt input, and so is a lone trailing digit. *)
Fixpoint decode_from (src : list byte) (si : Z) (dbuf : list Z)
  (out : list byte) : list byte * option error :=
match src with
| [] =>
    match dbuf with
    | [] => (out, None)
    | [d0] => (out, Some (CorruptInputError (si - 1)))
    | [d0; d1] => (out ++ firstn 1 (quantum d0 d1 0 0), None)
    | d0 :: d1 :: d2 :: _ => (out ++ firstn 2 (quantum d0 d1 d2 0), None)
    end
| c :: rest =>
    let d := decodeMap c in
    if negb (d =? 255) then
      match dbuf with
      | [d0; d1; d2] =>
          decode_from rest (si + 1) [] (out ++ quantum d0 d1 d2 d)
      | _ => decode_from rest (si + 1) (dbuf ++ [d]) out
      end
    else if (byte.unsigned c =? 10) || (byte.unsigned c =? 13) then
      decode_from rest (si + 1) dbuf out
    else (out, Some (CorruptInputError si))
end.

Definition Decode (src : list byte) : list byte * option error :=
decode_from src 0 [] [].

End WithAlphabet.
End Base64.

(** ** Package encoding *)
Module Encoding.

(** AppendBool takes a bool and returns its binary representation. *)
Definition AppendBool (buf : list byte) (x : bool) : list byte :=
  if x then buf ++ [byte.of_Z 255] else buf ++ [byte.of_Z 254].

(** DecodeBool takes a byte slice and decodes it into a boolean. *)
Definition DecodeBool (buf : list byte) : outcome (bool * option error) :=
  if (length buf =? 0)%nat then
    Returns (false, Some (errors_New "cannot decode buffer to bool"))
  else
    b ← index buf 0;
    Returns (byte.unsigned b =? 255, None).

(** AppendUint64 takes an uint64 and returns its binary representation. *)
Definition AppendUint64 (buf : list byte) (x : Z) : list byte :=
  let b := BigEndian.PutUint64 x in
  buf ++ b.

(** DecodeUint64 takes a byte slice and decodes it into a uint64. *)
Definition DecodeUint64 (buf : list byte) : outcome (Z * option error) :=
  if (length buf <? 8)%nat then
    Returns (0, Some (errors_New "cannot decode buffer to uint64"))
  else
    x ← BigEndian.Uint64 buf;
    Returns (x, None).

(** AppendInt64 takes an int64 and returns its binary representation. *)
Definition AppendInt64 (buf : list byte) (x : Z) : list byte :=
  let b := BigEndian.PutUint64 (wrap64 (wrap64 (to_uint64 x + MaxInt64) + 1)) in
  buf ++ b.

(** DecodeInt64 takes a byte slice and decodes it into an int64. *)
Definition DecodeInt64 (buf : list byte) : outcome (Z * option error) :=
  '(x, err) ← DecodeUint64 buf;
  let x := wrap64 (x - (MaxInt64 + 1)) in
  Returns (to_int64 x, err).

(** AppendFloat64 takes an float64 and returns its binary representation. *)
Definition AppendFloat64 (buf : list byte) (x : float64) : list byte :=
  let fb := Float64bits x in
  let fb :=
    if f64_ge0 x then Z.lxor fb (Z.shiftl 1 63)
    else Z.lxor fb (Z.shiftl 1 64 - 1) in
  AppendUint64 buf fb.

(** DecodeFloat64 takes a byte slice and decodes it into an float64. *)
Definition DecodeFloat64 (buf : list byte)
  : outcome (float64 * option error) :=
  if (length buf <? 8)%nat then
    Returns (Float64frombits 0,
             Some (errors_New "cannot decode buffer to float64"))
  else
    x ← BigEndian.Uint64 buf;
    let x :=
      if negb (Z.land x (Z.shiftl 1 63) =? 0) then Z.lxor x (Z.shiftl 1 63)
      else Z.lxor x (Z.shiftl 1 64 - 1) in
    Returns (Float64frombits x, None).

(** Default Base64 encoder string doesn't preserve lexicographic order.
    This alternative encoder does. *)
Definition base64encoder : string :=
  "-0123456789ABCDEFGHIJKLMNOPQRSTUVWXYZ_abcdefghijklmnopqrstuvwxyz".

Definition base64Encoding : list byte := list_byte_of_string base64encoder.

(** [make([]byte, n)]: [n] zero bytes. *)
Definition make (n : Z) : list byte := repeat Byte.x00 (Z.to_nat n).

(** AppendBase64 encodes data into a custom base64 encoding. The
    resulting slice respects natural sort-ordering.  Growing the buffer
    keeps its contents; [dst] is the window of [encLen] bytes after
    them, which [Encode] fills. *)
Definition AppendBase64 (buf data : list byte) : list byte * option error :=
  let encLen := Base64.EncodedLen (Z.of_nat (length data)) in
  let dst := Base64.Encode base64Encoding data in
  (buf ++ firstn (Z.to_nat encLen) dst, None).

(** DecodeBase64 decodes a custom base64 encoded byte slice, encoded
    with AppendBase64.  [Decode] writes its [n] bytes at the start of
    [dst]. *)
Definition DecodeBase64 (dst src : list byte) : list byte * option error :=
  let dst :=
    if Z.of_nat (length dst) <? Base64.DecodedLen (Z.of_nat (length src))
    then make (Base64.DecodedLen (Z.of_nat (length src)) * 2)
    else dst in
  let '(written, err) := Base64.Decode base64Encoding src in
  let n := length written in
  let dst := written ++ skipn n dst in
  (firstn n dst, err).

End Encoding.


(** ** Package stream *)
Module Stream.

(** Modelled from the spec: the operators of package stream, by their
    constructors. *)
Inductive Operator : Type :=
| SeqScan (table : string)
| Filter (e : Expr)
| GroupBy (e : Expr)
| HashAggregate (aggregators : list AggregatorBuilder)
| Project (exprs : list Expr)
| Distinct
| Sort (p : Path)
| SortReverse (p : Path)
| Skip (n : Z)
| Take (n : Z).

(** Modelled from the spec: a Stream is a linear list of operators, head
    first.  The nil [*Stream] is the stream without operator: the
    planner starts from it for a SELECT without FROM, and [Pipe] on it
    gives the stream of the piped operator alone. *)
Definition Stream : Type := list Operator.

Definition nil : Stream := [].
Definition New (op : Operator) : Stream := [op].
Definition Pipe (s : Stream) (op : Operator) : Stream := s ++ [op].

End Stream.

(** ** Package query: the SELECT planner *)
Module Query.
Import Stream.

(** SelectStmt holds SELECT configuration.  A nil expression or path is
    [None]. *)
Record SelectStmt : Type := {
  TableName : string;
  Distinct : bool;
  WhereExpr : option Expr;
  GroupByExpr : option Expr;
  OrderBy : option Path;
  OrderByDirection : Token;
  OffsetExpr : option Expr;
  LimitExpr : option Expr;
  ProjectionExprs : list Expr;
}.

Record StreamStmt : Type := {
  Stream : Stream.Stream;
  ReadOnly : bool;
}.

Definition group_by_format : string :=
  "field %q must appear in the GROUP BY clause or be used in an aggregate function".
Definition offset_format : string :=
  "offset expression must evaluate to a number, got %q".
Definition limit_format : string :=
  "limit expression must evaluate to a number, got %q".

(** The loop over the projections under GROUP BY: it stops at the first
    projection that is neither an aggregator nor the GROUP BY
    expression, which it returns as [invalidProjectedField], with the
    aggregators collected so far. *)
Fixpoint group_by_loop (groupByExpr : Expr) (pes : list Expr)
    (aggregators : list AggregatorBuilder)
  : option Expr * list AggregatorBuilder :=
  match pes with
  | [] => (None, aggregators)
  | pe :: rest =>
      match as_NamedExpr pe with
      | None => (Some pe, aggregators)
      | Some e =>
          match as_AggregatorBuilder e with
          | Some agg => group_by_loop groupByExpr rest (aggregators ++ [agg])
          | None =>
              if Equal e groupByExpr
              then group_by_loop groupByExpr rest aggregators
              else (Some pe, aggregators)
          end
      end
  end.

(** The loop over the projections without GROUP BY: it collects the
    aggregators and skips everything else. *)
Fixpoint aggregators_loop (pes : list Expr)
    (aggregators : list AggregatorBuilder) : list AggregatorBuilder :=
  match pes with
  | [] => aggregators
  | pe :: rest =>
      match as_NamedExpr pe with
      | None => aggregators_loop rest aggregators
      | Some e =>
          match as_AggregatorBuilder e with
          | Some agg => aggregators_loop rest (aggregators ++ [agg])
          | None => aggregators_loop rest aggregators
          end
      end
  end.

(** The callback handed to [expr.Walk] without FROM: a path or a
    wildcard sets [err] and stops the descent. *)
Definition no_tables_callback (e : Expr) (err : option error)
  : bool * option error :=
  match e with
  | PathExpr _ | Wildcard => (false, Some (errors_New "no tables specified"))
  | _ => (true, err)
  end.

(** The loop that walks each projection and returns at the first one
    that left [err] set. *)
Fixpoint no_tables_loop (pes : list Expr) (err : option error)
  : option error :=
  match pes with
  | [] => None
  | e :: rest =>
      match Walk no_tables_callback e err with
      | Some err => Some err
      | None => no_tables_loop rest None
      end
  end.

Section Planner.

(** [Expr.Eval] and [Value.CastAsInteger] belong to the evaluator,
    which is not among the sources: the planner is read for any two
    such functions. *)
Variable Eval : Expr -> Environment -> result Value.
Variable CastAsInteger : Value -> result Value.

(** The part of [ToStream] from the FROM clause through ORDER BY. *)
Definition plan_through_order_by (stmt : SelectStmt)
  : result Stream.Stream :=
  let s := Stream.nil in
  let s :=
    if negb (String.eqb (TableName stmt) "")
    then Stream.New (SeqScan (TableName stmt))
    else s in
  let s :=
    match WhereExpr stmt with
    | Some whereExpr => Pipe s (Filter whereExpr)
    | None => s
    end in
  (* when using GROUP BY, only aggregation functions or GroupByExpr
     can be selected *)
  s ← match GroupByExpr stmt with
      | Some groupByExpr =>
          (* add Group node *)
          let s := Pipe s (GroupBy groupByExpr) in
          let '(invalidProjectedField, aggregators) :=
            group_by_loop groupByExpr (ProjectionExprs stmt) [] in
          match invalidProjectedField with
          | Some invalid =>
              Err (Errorf group_by_format [ArgExpr invalid])
          | None =>
              (* add Aggregation node *)
              Ok (Pipe s (HashAggregate aggregators))
          end
      | None =>
          (* if there is no GROUP BY clause, check if there are any
             aggregation function and if so add an aggregation node *)
          let aggregators := aggregators_loop (ProjectionExprs stmt) [] in
          if (0 <? length aggregators)%nat
          then Ok (Pipe s (HashAggregate aggregators))
          else Ok s
      end;
  (* If there is no FROM clause ensure there is no wildcard or path *)
  _ ← (if String.eqb (TableName stmt) "" then
         match no_tables_loop (ProjectionExprs stmt) None with
         | Some err => Err err
         | None => Ok tt
         end
       else Ok tt);
  let s := Pipe s (Project (ProjectionExprs stmt)) in
  let s := if Distinct stmt then Pipe s Stream.Distinct else s in
  let s :=
    match OrderBy stmt with
    | Some orderBy =>
        if Token_eqb (OrderByDirection stmt) DESC
        then Pipe s (SortReverse orderBy)
        else Pipe s (Sort orderBy)
    | None => s
    end in
  Ok s.

(** The OFFSET block of [ToStream]. *)
Definition plan_offset (stmt : SelectStmt) (s : Stream.Stream)
  : result Stream.Stream :=
  match OffsetExpr stmt with
  | Some offsetExpr =>
      v ← Eval offsetExpr empty_Environment;
      if negb (IsNumber (Value_Type v)) then
        Err (Errorf offset_format [ArgType (Value_Type v)])
      else
        v ← CastAsInteger v;
        n ← V_int64 v;
        Ok (Pipe s (Skip n))
  | None => Ok s
  end.

(** The LIMIT block of [ToStream]. *)
Definition plan_limit (stmt : SelectStmt) (s : Stream.Stream)
  : result Stream.Stream :=
  match LimitExpr stmt with
  | Some limitExpr =>
      v ← Eval limitExpr empty_Environment;
      if negb (IsNumber (Value_Type v)) then
        Err (Errorf limit_format [ArgType (Value_Type v)])
      else
        v ← CastAsInteger v;
        n ← V_int64 v;
        Ok (Pipe s (Take n))
  | None => Ok s
  end.

Definition ToStream (stmt : SelectStmt) : result StreamStmt :=
  s ← plan_through_order_by stmt;
  s ← plan_offset stmt s;
  s ← plan_limit stmt s;
  Ok {| Stream := s; ReadOnly := true |}.

End Planner.

End Query.

(** ** Package parser: the VALUES tuples of INSERT *)
Module Parser.

Record KVPair : Type := { K : string; V : option Expr }.
Record KVPairs : Type := { Pairs : list KVPair }.

(** [make([]expr.KVPair, n)]: [n] zero pairs. *)
Definition make (n : nat) : list KVPair :=
  repeat {| K := ""; V := None |} n.

(** [pairs[i] = f(pairs[i])]: panics out of range. *)
Definition assign (pairs : list KVPair) (i : nat) (f : KVPair -> KVPair)
  : result (list KVPair) :=
  match pairs !! i with
  | Some kv => Ok (<[i := f kv]> pairs)
  | None => Panic
  end.

Definition at_index {A : Type} (l : list A) (i : nat) : result A :=
  match l !! i with
  | Some x => Ok x
  | None => Panic
  end.

(** The loop [for i := range list] that fills the pairs; [exprs] is the
    Go variable [list]. *)
Fixpoint fill_loop (fields : list string) (exprs : list Expr)
    (indices : list nat) (pairs : list KVPair) : result (list KVPair) :=
  match indices with
  | [] => Ok pairs
  | i :: rest =>
      k ← at_index fields i;
      pairs ← assign pairs i (fun kv => {| K := k; V := V kv |});
      v ← at_index exprs i;
      pairs ← assign pairs i (fun kv => {| K := K kv; V := Some v |});
      fill_loop fields exprs rest pairs
  end.

Definition values_format : string := "%d values for %d fields".

Section WithScanner.

(** The state of a [*Parser] and its [parseExprList], which scans a
    parenthesized list of expressions: both belong to parts of the
    package that are not among the sources. *)
Variable Parser : Type.
Variable parseExprList : Token -> Token -> Parser -> result (list Expr) * Parser.

Definition parseExprListWithFields (fields : list string) (p : Parser)
  : result KVPairs * Parser :=
  let '(r, p) := parseExprList LPAREN RPAREN p in
  match r with
  | Err err => (Err err, p)
  | Panic => (Panic, p)
  | Ok exprs =>
      let pairs := make (length exprs) in
      if negb (length fields =? length exprs)%nat then
        (Err (Errorf values_format
                [ArgInt (Z.of_nat (length exprs));
                 ArgInt (Z.of_nat (length fields))]), p)
      else
        (pairs ← fill_loop fields exprs (seq 0 (length exprs)) pairs;
         Ok {| Pairs := pairs |}, p)
  end.

End WithScanner.

End Parser.

(** ** Definitions used to state the properties *)

(** The number a byte string denotes, most significant byte first. *)
Fixpoint be_value (l : list byte) : Z :=
  match l with
  | [] => 0
  | x :: l' => byte.unsigned x * 256 ^ Z.of_nat (length l') + be_value l'
  end.

(** The magnitude of a float64: its exponent and mantissa fields. *)
Definition f64_magnitude (x : float64) : Z := Float64bits x mod 2 ^ 63.

(** The rank of a float64 that is not a NaN: its magnitude, negated under
    the sign bit.  Comparing ranks is comparing values. *)
Definition f64_rank (x : float64) : Z :=
  if f64_sign x then - f64_magnitude x else f64_magnitude x.

(** The uint64 [AppendFloat64] hands to [AppendUint64]. *)
Definition f64_key (x : float64) : Z :=
  if f64_ge0 x then Z.lxor (Float64bits x) (Z.shiftl 1 63)
  else Z.lxor (Float64bits x) (Z.shiftl 1 64 - 1).

(** Lexicographic order on lists of numbers. *)
Fixpoint zlex (a b : list Z) : bool :=
  match a, b with
  | _, [] => false
  | [], _ :: _ => true
  | x :: a', y :: b' => (x <? y) || ((x =? y) && zlex a' b')
  end.

(** The 6-bit digit of [v] at [shift], and the digits [Encode] looks up in
    the alphabet, in arithmetic form. *)
Definition digit (v : Z) (shift : Z) : Z := (v / 2 ^ shift) mod 64.

Fixpoint digits (src : list byte) : list Z :=
  match src with
  | [] => []
  | [x] =>
      let v := byte.unsigned x * 65536 in
      [digit v 18; digit v 12]
  | [x; y] =>
      let v := byte.unsigned x * 65536 + byte.unsigned y * 256 in
      [digit v 18; digit v 12; digit v 6]
  | x :: y :: z :: rest =>
      let v := byte.unsigned x * 65536 + byte.unsigned y * 256
               + byte.unsigned z in
      [digit v 18; digit v 12; digit v 6; digit v 0] ++ digits rest
  end.

(** What the codec needs of an alphabet: the byte of a digit grows with the
    digit, and [decodeMap] sends it back to the digit. *)
Definition range64 : list Z := map Z.of_nat (seq 0 64).

Definition alphabet_increasing (alphabet : list byte) : bool :=
  forallb (fun i => forallb (fun j =>
    Bool.eqb (byte.unsigned (Base64.encode alphabet i)
              <? byte.unsigned (Base64.encode alphabet j)) (i <? j))
    range64) range64.

Definition alphabet_decodes (alphabet : list byte) : bool :=
  forallb (fun i => Base64.decodeMap alphabet (Base64.encode alphabet i) =? i)
    range64.

Module QuerySpec.
Import Stream Query.

(** The aggregators drawn from a projection list: the top-level named
    expressions that are aggregators, in order. *)
Definition projected_aggregators (pes : list Expr) : list AggregatorBuilder :=
  omap (fun pe => as_NamedExpr pe ≫= as_AggregatorBuilder) pes.

(** The test of the GROUP BY loop on one projection. *)
Definition accepted (groupByExpr pe : Expr) : bool :=
  match as_NamedExpr pe with
  | Some e =>
      match as_AggregatorBuilder e with
      | Some _ => true
      | None => Equal e groupByExpr
      end
  | None => false
  end.

(** A projection as the specification reads it: the expression that is
    projected (under its alias, if it has one) is an aggregator or is
    equal to the GROUP BY expression. *)
Definition projected (pe : Expr) : Expr :=
  match pe with
  | NamedExpr e _ => e
  | _ => pe
  end.

Definition selectable (groupByExpr pe : Expr) : bool :=
  match as_AggregatorBuilder (projected pe) with
  | Some _ => true
  | None => Equal (projected pe) groupByExpr
  end.

Section WithEvaluator.

Variable Eval : Expr -> Environment -> result Value.
Variable CastAsInteger : Value -> result Value.

(** The integer an OFFSET or LIMIT expression stands for at plan
    time: its value in the empty environment, cast to an integer. *)
Definition plan_time_integer (e : Expr) : option Z :=
  match Eval e empty_Environment with
  | Ok v =>
      if IsNumber (Value_Type v) then
        match CastAsInteger v with
        | Ok (IntegerV n) => Some n
        | _ => None
        end
      else None
  | _ => None
  end.

Definition count_stage (mk : Z -> Operator) (e : option Expr)
  : list Operator :=
  match e with
  | Some e =>
      match plan_time_integer e with
      | Some n => [mk n]
      | None => []
      end
  | None => []
  end.

(** The pipeline of a SELECT as the specification lists it, one line
    per stage, a stage being there only when its clause is. *)
Definition spec_pipeline (stmt : SelectStmt) : list Operator :=
  (if String.eqb (TableName stmt) "" then []
   else [SeqScan (TableName stmt)])
  ++ match WhereExpr stmt with
     | Some w => [Filter w]
     | None => []
     end
  ++ match GroupByExpr stmt with
     | Some g =>
         [GroupBy g;
          HashAggregate (projected_aggregators (ProjectionExprs stmt))]
     | None =>
         match projected_aggregators (ProjectionExprs stmt) with
         | [] => []
         | aggs => [HashAggregate aggs]
         end
     end
  ++ [Project (ProjectionExprs stmt)]
  ++ (if Distinct stmt then [Stream.Distinct] else [])
  ++ match OrderBy stmt with
     | Some p =>
         match OrderByDirection stmt with
         | DESC => [SortReverse p]
         | _ => [Sort p]
         end
     | None => []
     end
  ++ count_stage Skip (OffsetExpr stmt)
  ++ count_stage Take (LimitExpr stmt).

End WithEvaluator.

(** An evaluator for constants and the cast of integers, to run the
    planner on examples. *)
Definition Eval_constant (e : Expr) (env : Environment) : result Value :=
  match e with
  | Literal v => Ok v
  | _ => Err (errors_New "not a constant")
  end.

Definition CastAsInteger_integer (v : Value) : result Value :=
  match v with
  | IntegerV _ => Ok v
  | _ => Err (errors_New "cannot cast to integer")
  end.

Definition path_a : Path := [FieldName "a"].
Definition count_star : Expr := Aggregator "COUNT" (PathExpr path_a).

(** SELECT DISTINCT a, COUNT(a) AS count FROM t WHERE a > 1 GROUP BY a
    ORDER BY a DESC LIMIT 10 OFFSET 2 *)
Definition select_grouped : SelectStmt := {|
  TableName := "t";
  Distinct := true;
  WhereExpr := Some (Binary ">" (PathExpr path_a) (Literal (IntegerV 1)));
  GroupByExpr := Some (PathExpr path_a);
  OrderBy := Some path_a;
  OrderByDirection := DESC;
  OffsetExpr := Some (Literal (IntegerV 2));
  LimitExpr := Some (Literal (IntegerV 10));
  ProjectionExprs :=
    [NamedExpr (PathExpr path_a) "a"; NamedExpr count_star "count"];
|}.

(** SELECT a, b FROM t GROUP BY a *)
Definition select_ungrouped_field : SelectStmt := {|
  TableName := "t";
  Distinct := false;
  WhereExpr := None;
  GroupByExpr := Some (PathExpr path_a);
  OrderBy := None;
  OrderByDirection := ILLEGAL;
  OffsetExpr := None;
  LimitExpr := None;
  ProjectionExprs :=
    [NamedExpr (PathExpr path_a) "a";
     NamedExpr (PathExpr [FieldName "b"]) "b"];
|}.

(** SELECT a FROM t LIMIT 1 OFFSET 'x' *)
Definition select_text_offset : SelectStmt := {|
  TableName := "t";
  Distinct := false;
  WhereExpr := None;
  GroupByExpr := None;
  OrderBy := None;
  OrderByDirection := ILLEGAL;
  OffsetExpr := Some (Literal (TextV "x"));
  LimitExpr := Some (Literal (IntegerV 1));
  ProjectionExprs := [NamedExpr (PathExpr path_a) "a"];
|}.

(** SELECT 1 *)
Definition select_constant : SelectStmt := {|
  TableName := "";
  Distinct := false;
  WhereExpr := None;
  GroupByExpr := None;
  OrderBy := None;
  OrderByDirection := ILLEGAL;
  OffsetExpr := None;
  LimitExpr := None;
  ProjectionExprs := [NamedExpr (Literal (IntegerV 1)) "1"];
|}.

(** SELECT a + 1 *)
Definition select_path_without_from : SelectStmt := {|
  TableName := "";
  Distinct := false;
  WhereExpr := None;
  GroupByExpr := None;
  OrderBy := None;
  OrderByDirection := ILLEGAL;
  OffsetExpr := None;
  LimitExpr := None;
  ProjectionExprs :=
    [NamedExpr (Binary "+" (PathExpr path_a) (Literal (IntegerV 1))) "a + 1"];
|}.

End QuerySpec.

Module ParserSpec.
Import Parser.

(** The pair of a field name and an expression. *)
Definition pair_of (k : string) (v : Expr) : KVPair :=
  {| K := k; V := Some v |}.

(** A parser whose state is the tuple it is about to read, to run
    [parseExprListWithFields] on examples. *)
Definition tuple_parser : Type := list Expr.

Definition parse_tuple (open close : Token) (p : tuple_parser)
  : result (list Expr) * tuple_parser :=
  (Ok p, []).

End ParserSpec.

Ltac bool_to_prop :=
  rewrite ?orb_true_iff, ?andb_true_iff, ?Z.ltb_lt, ?Z.eqb_eq in *.

(** Whether a path or a wildcard is among the nodes of an expression. *)
Fixpoint mentions_table (e : Expr) : bool :=
  match e with
  | PathExpr _ | Wildcard => true
  | Literal _ | ParamExpr _ => false
  | Unary _ c | Aggregator _ c | NamedExpr c _ => mentions_table c
  | Binary _ l r => mentions_table l || mentions_table r
  | Function _ args =>
      (fix any_arg (l : list Expr) : bool :=
         match l with
         | [] => false
         | a :: l' => mentions_table a || any_arg l'
         end) args
  | KVPairsExpr pairs =>
      (fix any_pair (l : list (string * Expr)) : bool :=
         match l with
         | [] => false
         | (_, a) :: l' => mentions_table a || any_pair l'
         end) pairs
  end.

(** The error of a SELECT without FROM that names a path or a wildcard. *)
Definition no_tables : error := errors_New "no tables specified".

(** SELECT count(a), i.e. a path under an aggregator, without FROM. *)
Definition select_count_without_from : Query.SelectStmt := {|
  Query.TableName := "";
  Query.Distinct := false;
  Query.WhereExpr := None;
  Query.GroupByExpr := None;
  Query.OrderBy := None;
  Query.OrderByDirection := ILLEGAL;
  Query.OffsetExpr := None;
  Query.LimitExpr := None;
  Query.ProjectionExprs := [NamedExpr QuerySpec.count_star "count"];
|}.

(** SELECT a FROM t LIMIT 2.5 for an evaluator that knows constants only
    and a cast that refuses doubles. *)
Definition select_double_limit : Query.SelectStmt := {|
  Query.TableName := "t";
  Query.Distinct := false;
  Query.WhereExpr := None;
  Query.GroupByExpr := None;
  Query.OrderBy := None;
  Query.OrderByDirection := ILLEGAL;
  Query.OffsetExpr := None;
  Query.LimitExpr := Some (Literal (DoubleV (Float64frombits 0x4004000000000000)));
  Query.ProjectionExprs := [NamedExpr (PathExpr QuerySpec.path_a) "a"];
|}.

(** ** Package parser: the VALUES clause of INSERT *)
Module ParserValues.
Import Parser ParserSpec.

(** Modelled from the spec: the position the scanner reports with a
    token. *)
Record Pos : Type := { Line : Z; Char : Z }.

(** An element of the [[]expr.Expr] that [parseValues] returns: the
    KVPairs document built from a tuple and the field list, or the
    parameter or document read when there is no field list. *)
Inductive ValueExpr : Type :=
| PairsDoc (pairs : KVPairs)
| DocOrParam (e : Expr).

(** The KVPairs document of a tuple under a field list. *)
Definition document_of (fields : list string) (tuple : list Expr) : KVPairs :=
  {| Pairs := zip_with pair_of fields tuple |}.

Section WithScanner.

(** The state of a [*Parser] and the methods of it that the VALUES clause
    calls: they belong to parts of the package that are not among the
    sources.  [parseParam] returns a nil expression when the next token
    is not a parameter. *)
Variable Parser : Type.
Variable parseExprList : Token -> Token -> Parser -> result (list Expr) * Parser.
Variable ScanIgnoreWhitespace : Parser -> (Token * Pos * string) * Parser.
Variable Unscan : Parser -> Parser.
Variable parseParam : Parser -> result (option Expr) * Parser.
Variable ParseDocument : Parser -> result Expr * Parser.

(** The loop [for { ... }] of [parseDocumentsWithFields] over the
    remaining (optional) tuples.  Each round takes one unit of [fuel];
    [None] is a loop that has not ended when the fuel has. *)
Fixpoint documents_loop (fuel : nat) (fields : list string) (p : Parser)
    (docs : list KVPairs) : option (result (list KVPairs) * Parser) :=
  match fuel with
  | O => None
  | S fuel =>
      let '((tok, _, _), p) := ScanIgnoreWhitespace p in
      if negb (Token_eqb tok COMMA) then
        let p := Unscan p in
        Some (Ok docs, p)
      else
        let '(r, p) := parseExprListWithFields Parser parseExprList fields p in
        match r with
        | Err err => Some (Err err, p)
        | Panic => Some (Panic, p)
        | Ok doc => documents_loop fuel fields p (docs ++ [doc])
        end
  end.

Definition parseDocumentsWithFields (fuel : nat) (fields : list string)
    (p : Parser) : option (result (list KVPairs) * Parser) :=
  let docs := [] in
  (* Parse first (required) value list. *)
  let '(r, p) := parseExprListWithFields Parser parseExprList fields p in
  match r with
  | Err err => Some (Err err, p)
  | Panic => Some (Panic, p)
  | Ok doc =>
      let docs := docs ++ [doc] in
      (* Parse remaining (optional) values. *)
      documents_loop fuel fields p docs
  end.

(** parseParamOrDocument parses either a parameter or a document. *)
Definition parseParamOrDocument (p : Parser) : result Expr * Parser :=
  (* Parse a param first *)
  let '(r, p) := parseParam p in
  match r with
  | Err err => (Err err, p)
  | Panic => (Panic, p)
  | Ok (Some prm) => (Ok prm, p)
  | Ok None =>
      (* If not a param, start over *)
      let p := Unscan p in
      (* Expect a document *)
      ParseDocument p
  end.

Fixpoint literals_loop (fuel : nat) (p : Parser) (docs : list Expr)
    : option (result (list Expr) * Parser) :=
  match fuel with
  | O => None
  | S fuel =>
      let '((tok, _, _), p) := ScanIgnoreWhitespace p in
      if negb (Token_eqb tok COMMA) then
        let p := Unscan p in
        Some (Ok docs, p)
      else
        let '(r, p) := parseParamOrDocument p in
        match r with
        | Err err => Some (Err err, p)
        | Panic => Some (Panic, p)
        | Ok doc => literals_loop fuel p (docs ++ [doc])
        end
  end.

Definition parseLiteralDocOrParamList (fuel : nat) (p : Parser)
    : option (result (list Expr) * Parser) :=
  let docs := [] in
  (* Parse first (required) value list. *)
  let '(r, p) := parseParamOrDocument p in
  match r with
  | Err err => Some (Err err, p)
  | Panic => Some (Panic, p)
  | Ok doc =>
      let docs := docs ++ [doc] in
      (* Parse remaining (optional) values. *)
      literals_loop fuel p docs
  end.

(** parseValues parses the "VALUES" clause of the query, if it exists. *)
Definition parseValues (fuel : nat) (fields : list string) (p : Parser)
    : option (result (list ValueExpr) * Parser) :=
  if (0 <? length fields)%nat then
    match parseDocumentsWithFields fuel fields p with
    | Some (Ok docs, p) => Some (Ok (map PairsDoc docs), p)
    | Some (Err err, p) => Some (Err err, p)
    | Some (Panic, p) => Some (Panic, p)
    | None => None
    end
  else
    match parseLiteralDocOrParamList fuel p with
    | Some (Ok docs, p) => Some (Ok (map DocOrParam docs), p)
    | Some (Err err, p) => Some (Err err, p)
    | Some (Panic, p) => Some (Panic, p)
    | None => None
    end.

(** What the parser reads from [p] on: a comma and a tuple, as many times
    as the list is long, which leaves it in [p']. *)
Inductive comma_tuples : Parser -> list (list Expr) -> Parser -> Prop :=
| comma_tuples_nil (p : Parser) : comma_tuples p [] p
| comma_tuples_cons (p p1 p2 p' : Parser) (pos : Pos) (lit : string)
    (tuple : list Expr) (tuples : list (list Expr)) :
    ScanIgnoreWhitespace p = ((COMMA, pos, lit), p1) ->
    parseExprList LPAREN RPAREN p1 = (Ok tuple, p2) ->
    comma_tuples p2 tuples p' ->
    comma_tuples p (tuple :: tuples) p'.

(** The same for parameters and documents. *)
Inductive comma_literals : Parser -> list Expr -> Parser -> Prop :=
| comma_literals_nil (p : Parser) : comma_literals p [] p
| comma_literals_cons (p p1 p2 p' : Parser) (pos : Pos) (lit : string)
    (doc : Expr) (docs : list Expr) :
    ScanIgnoreWhitespace p = ((COMMA, pos, lit), p1) ->
    parseParamOrDocument p1 = (Ok doc, p2) ->
    comma_literals p2 docs p' ->
    comma_literals p (doc :: docs) p'.

End WithScanner.

(** A scanner over tuples and tokens already cut out of the text, with
    the one token of lookahead that [Unscan] gives back, to run the
    VALUES clause on examples. *)
Inductive item : Type :=
| ITuple (tuple : list Expr)
| IDocument (doc : Expr)
| IToken (tok : Token).

Record cut_parser : Type := { rest : list item; last : option Token }.

Definition cut_parseExprList (open close : Token) (p : cut_parser)
  : result (list Expr) * cut_parser :=
  match rest p with
  | ITuple tuple :: r => (Ok tuple, {| rest := r; last := None |})
  | _ => (Err (errors_New "expected a tuple"), p)
  end.

Definition cut_Scan (p : cut_parser) : (Token * Pos * string) * cut_parser :=
  match rest p with
  | IToken tok :: r =>
      ((tok, {| Line := 0; Char := 0 |}, ""), {| rest := r; last := Some tok |})
  | _ => ((ILLEGAL, {| Line := 0; Char := 0 |}, ""), {| rest := rest p; last := None |})
  end.

Definition cut_Unscan (p : cut_parser) : cut_parser :=
  match last p with
  | Some tok => {| rest := IToken tok :: rest p; last := None |}
  | None => p
  end.

Definition cut_parseParam (p : cut_parser) : result (option Expr) * cut_parser :=
  (Ok None, {| rest := rest p; last := None |}).

Definition cut_ParseDocument (p : cut_parser) : result Expr * cut_parser :=
  match rest p with
  | IDocument doc :: r => (Ok doc, {| rest := r; last := None |})
  | _ => (Err (errors_New "expected a document"), p)
  end.

Definition one : Expr := Literal (IntegerV 1).
Definition two : Expr := Literal (IntegerV 2).
Definition three : Expr := Literal (IntegerV 3).

(** (1, 2), (3, 1) RETURNING ... *)
Definition two_tuples : cut_parser := {|
  rest := [ITuple [one; two]; IToken COMMA; ITuple [three; one];
           IToken RETURNING];
  last := None |}.

(** (1, 2), (3) *)
Definition short_second_tuple : cut_parser := {|
  rest := [ITuple [one; two]; IToken COMMA; ITuple [three]];
  last := None |}.

(** {a: 1}, {a: 2} *)
Definition two_documents : cut_parser := {|
  rest := [IDocument (KVPairsExpr [("a", one)]); IToken COMMA;
           IDocument (KVPairsExpr [("a", two)])];
  last := None |}.

End ParserValues.

(** * Properties *)
Lemma byte_range (b : byte) : 0 <= byte.unsigned b < 256.
Proof. exact (byte.unsigned_range b). Qed.

Lemma byte_of_Z_mod (z : Z) : byte.unsigned (byte.of_Z z) = z mod 256.
Proof. rewrite byte.unsigned_of_Z. reflexivity. Qed.

Lemma be_value_bound (l : list byte) : 0 <= be_value l < 256 ^ Z.of_nat (length l).
Proof.
  induction l as [|x l IH]; cbn [be_value length].
  - simpl. lia.
  - pose proof (byte_range x). rewrite Nat2Z.inj_succ, Z.pow_succ_r by lia. nia.
Qed.

Lemma bytes_lt_be_value (a : list byte) :
  forall b, length a = length b -> bytes_lt a b = (be_value a <? be_value b).
Proof.
  induction a as [|x a IH]; intros [|y b] Hlen; try discriminate.
  - reflexivity.
  - injection Hlen as Hlen. cbn [bytes_lt be_value]. rewrite (IH b Hlen), <- Hlen.
    pose proof (be_value_bound a). pose proof (be_value_bound b).
    rewrite <- Hlen in *.
    pose proof (byte_range x). pose proof (byte_range y).
    set (p := 256 ^ Z.of_nat (length a)) in *.
    destruct (Z.ltb_spec (byte.unsigned x) (byte.unsigned y));
    destruct (Z.eqb_spec (byte.unsigned x) (byte.unsigned y));
    destruct (Z.ltb_spec (be_value a) (be_value b)); cbn;
    symmetry; try (apply Z.ltb_lt; nia); try (apply Z.ltb_ge; nia).
Qed.

Lemma be_value_PutUint64 (v : Z) : is_uint64 v -> be_value (BigEndian.PutUint64 v) = v.
Proof.
  unfold is_uint64, BigEndian.PutUint64. intros Hv.
  cbn [be_value length]. rewrite !byte_of_Z_mod, !Z.shiftr_div_pow2 by lia.
  change (2 ^ 64) with 18446744073709551616 in Hv.
  cbn; Z.to_euclidean_division_equations; lia.
Qed.



Lemma lor_add_high (x y k : Z) :
  0 <= k -> 0 <= x < 2 ^ k -> y mod 2 ^ k = 0 -> Z.lor x y = x + y.
Proof.
  intros Hk Hx Hy.
  assert (Hland : Z.land x y = 0).
  { apply Z.bits_inj'. intros i Hi. rewrite Z.land_spec, Z.bits_0.
    destruct (Z.lt_ge_cases i k) as [Hlt|Hge].
    - rewrite <- (Z.mod_pow2_bits_low y k i), Hy, Z.bits_0 by lia.
      apply andb_false_r.
    - rewrite <- (Z.mod_small x (2 ^ k)), Z.mod_pow2_bits_high by lia.
      reflexivity. }
  rewrite Z.add_nocarry_lxor by exact Hland.
  symmetry. apply Z.lxor_lor. exact Hland.
Qed.

Lemma Uint64_be_value b0 b1 b2 b3 b4 b5 b6 b7 rest :
  BigEndian.Uint64 (b0 :: b1 :: b2 :: b3 :: b4 :: b5 :: b6 :: b7 :: rest)
  = Returns (be_value [b0; b1; b2; b3; b4; b5; b6; b7]).
Proof.
  unfold BigEndian.Uint64. f_equal. cbn [be_value length].
  pose proof (byte_range b0). pose proof (byte_range b1).
  pose proof (byte_range b2). pose proof (byte_range b3).
  pose proof (byte_range b4). pose proof (byte_range b5).
  pose proof (byte_range b6). pose proof (byte_range b7).
  rewrite !Z.shiftl_mul_pow2 by lia.
  generalize dependent (byte.unsigned b0). generalize dependent (byte.unsigned b1).
  generalize dependent (byte.unsigned b2). generalize dependent (byte.unsigned b3).
  generalize dependent (byte.unsigned b4). generalize dependent (byte.unsigned b5).
  generalize dependent (byte.unsigned b6). generalize dependent (byte.unsigned b7).
  intros z7 H7 z6 H6 z5 H5 z4 H4 z3 H3 z2 H2 z1 H1 z0 H0.
  cbn.
  rewrite (lor_add_high (z1 * _) (z0 * _) 56) by (cbn; try Z.to_euclidean_division_equations; lia).
  rewrite (lor_add_high (z2 * _) (_ + _) 48) by (cbn; try Z.to_euclidean_division_equations; lia).
  rewrite (lor_add_high (z3 * _) (_ + _) 40) by (cbn; try Z.to_euclidean_division_equations; lia).
  rewrite (lor_add_high (z4 * _) (_ + _) 32) by (cbn; try Z.to_euclidean_division_equations; lia).
  rewrite (lor_add_high (z5 * _) (_ + _) 24) by (cbn; try Z.to_euclidean_division_equations; lia).
  rewrite (lor_add_high (z6 * _) (_ + _) 16) by (cbn; try Z.to_euclidean_division_equations; lia).
  rewrite (lor_add_high z7 (_ + _) 8) by (cbn; try Z.to_euclidean_division_equations; lia).
  lia.
Qed.

Lemma Uint64_PutUint64 (v : Z) (rest : list byte) :
  is_uint64 v -> BigEndian.Uint64 (BigEndian.PutUint64 v ++ rest) = Returns v.
Proof.
  intros Hv. unfold BigEndian.PutUint64. cbn [app].
  rewrite Uint64_be_value. f_equal. exact (be_value_PutUint64 v Hv).
Qed.
(** *** Bit-level facts about the two masks of the float codec *)

Lemma land_signbit_low (x : Z) : 0 <= x < 2 ^ 63 -> Z.land x (2 ^ 63) = 0.
Proof.
  intros Hx. apply Z.bits_inj'. intros i Hi.
  rewrite Z.land_spec, Z.bits_0, Z.pow2_bits_eqb by lia.
  destruct (Z.eqb_spec 63 i) as [<-|Hne]; [|apply andb_false_r].
  rewrite <- (Z.mod_small x (2 ^ 63)), Z.mod_pow2_bits_high by lia. reflexivity.
Qed.

Lemma lxor_signbit_low (x : Z) : 0 <= x < 2 ^ 63 -> Z.lxor x (2 ^ 63) = x + 2 ^ 63.
Proof.
  intros Hx. symmetry. apply Z.add_nocarry_lxor, land_signbit_low, Hx.
Qed.

Lemma lxor_signbit_high (x : Z) :
  2 ^ 63 <= x < 2 ^ 64 -> Z.lxor x (2 ^ 63) = x - 2 ^ 63.
Proof.
  intros Hx. replace x with ((x - 2 ^ 63) + 2 ^ 63) at 1 by lia.
  rewrite <- lxor_signbit_low by lia.
  rewrite Z.lxor_assoc, Z.lxor_nilpotent, Z.lxor_0_r. reflexivity.
Qed.

Lemma land_signbit_high (x : Z) :
  2 ^ 63 <= x < 2 ^ 64 -> Z.land x (2 ^ 63) = 2 ^ 63.
Proof.
  intros Hx. replace x with ((x - 2 ^ 63) + 2 ^ 63) by lia.
  rewrite <- lxor_signbit_low by lia.
  rewrite Z.lxor_lor by (apply land_signbit_low; lia).
  rewrite Z.land_lor_distr_l, land_signbit_low, Z.land_diag by lia.
  reflexivity.
Qed.

Lemma lxor_all_ones (x : Z) :
  0 <= x < 2 ^ 64 -> Z.lxor x (2 ^ 64 - 1) = 2 ^ 64 - 1 - x.
Proof.
  intros Hx.
  assert (Hland : Z.land (2 ^ 64 - 1 - x) x = 0).
  { change (2 ^ 64 - 1) with (Z.ones 64).
    rewrite Z.sub_nocarry_ldiff.
    - apply Z.bits_inj'. intros i Hi.
      rewrite Z.land_spec, Z.ldiff_spec, Z.bits_0.
      destruct (Z.testbit x i), (Z.testbit (Z.ones 64) i); reflexivity.
    - rewrite Z.ldiff_ones_r by lia.
      rewrite Z.shiftr_div_pow2, Z.div_small by lia. reflexivity. }
  assert (Hxor : Z.lxor (2 ^ 64 - 1 - x) x = 2 ^ 64 - 1).
  { rewrite <- Z.add_nocarry_lxor by exact Hland. lia. }
  rewrite <- Hxor at 1.
  rewrite (Z.lxor_comm (2 ^ 64 - 1 - x) x), <- Z.lxor_assoc.
  rewrite Z.lxor_nilpotent, Z.lxor_0_l. reflexivity.
Qed.

(** *** The fields of a float64 *)

Lemma f64_mantissa_mod (x : float64) :
  f64_mantissa x = Float64bits x mod 2 ^ 52.
Proof.
  unfold f64_mantissa. change (2 ^ 52 - 1) with (Z.ones 52).
  apply Z.land_ones. lia.
Qed.

Lemma f64_exponent_mod (x : float64) :
  f64_exponent x = (Float64bits x / 2 ^ 52) mod 2 ^ 11.
Proof.
  unfold f64_exponent. change 2047 with (Z.ones 11).
  rewrite Z.land_ones, Z.shiftr_div_pow2 by lia. reflexivity.
Qed.

Lemma f64_sign_leb (x : float64) :
  is_float64 x -> f64_sign x = (2 ^ 63 <=? Float64bits x).
Proof.
  unfold is_float64, is_uint64, f64_sign. intros Hx.
  destruct (Z.leb_spec (2 ^ 63) (Float64bits x)) as [Hge|Hlt].
  - apply Z.testbit_true; [lia|].
    change (2 ^ 64) with 18446744073709551616 in Hx.
    change (2 ^ 63) with 9223372036854775808 in *.
    Z.to_euclidean_division_equations; lia.
  - apply Z.testbit_false; [lia|].
    rewrite Z.div_small by lia. reflexivity.
Qed.

Lemma f64_magnitude_fields (x : float64) :
  f64_magnitude x = f64_exponent x * 2 ^ 52 + f64_mantissa x.
Proof.
  rewrite f64_mantissa_mod, f64_exponent_mod. unfold f64_magnitude.
  change (2 ^ 63) with 9223372036854775808.
  change (2 ^ 52) with 4503599627370496.
  change (2 ^ 11) with 2048.
  Z.to_euclidean_division_equations; lia.
Qed.

Lemma f64_fields_range (x : float64) :
  0 <= f64_exponent x < 2048 /\ 0 <= f64_mantissa x < 2 ^ 52.
Proof.
  rewrite f64_mantissa_mod, f64_exponent_mod. split.
  - apply (Z.mod_pos_bound _ (2 ^ 11)). lia.
  - apply Z.mod_pos_bound. lia.
Qed.

Lemma f64_bits_sign_magnitude (x : float64) :
  is_float64 x ->
  Float64bits x = (if f64_sign x then 2 ^ 63 else 0) + f64_magnitude x.
Proof.
  intros Hx. rewrite (f64_sign_leb x Hx). unfold f64_magnitude.
  unfold is_float64, is_uint64 in Hx.
  change (2 ^ 64) with 18446744073709551616 in Hx.
  change (2 ^ 63) with 9223372036854775808 in *.
  destruct (Z.leb_spec 9223372036854775808 (Float64bits x));
    Z.to_euclidean_division_equations; lia.
Qed.

Lemma Pos_compare_cont_Eq (p q : positive) :
  PosDef.Pos.compare_cont Eq p q = (Z.pos p ?= Z.pos q).
Proof. reflexivity. Qed.

Lemma f64_compare_rank (a b : float64) :
  f64_isNaN a = false -> f64_isNaN b = false ->
  SFcompare (f64_value a) (f64_value b) = Some (f64_rank a ?= f64_rank b).
Proof.
  unfold f64_isNaN, f64_value, f64_rank.
  rewrite !f64_magnitude_fields.
  destruct (f64_fields_range a) as [Hea Hma].
  destruct (f64_fields_range b) as [Heb Hmb].
  set (ea := f64_exponent a) in *. set (ma := f64_mantissa a) in *.
  set (eb := f64_exponent b) in *. set (mb := f64_mantissa b) in *.
  change (2 ^ 52) with 4503599627370496 in *.
  destruct (f64_sign a), (f64_sign b);
    destruct (Z.eqb_spec ea 0), (Z.eqb_spec ma 0), (Z.eqb_spec ea 2047);
    destruct (Z.eqb_spec eb 0), (Z.eqb_spec mb 0), (Z.eqb_spec eb 2047);
    intros Ha Hb; try discriminate; try lia;
    cbn [SFcompare]; f_equal; rewrite ?Pos_compare_cont_Eq;
    rewrite ?Z2Pos.id by lia;
    repeat match goal with
    | |- context [?x ?= ?y] => destruct (Z.compare_spec x y)
    end; cbn [CompOpp]; try reflexivity; try lia.
Qed.
(** *** The float codec *)

Lemma AppendFloat64_key (buf : list byte) (x : float64) :
  Encoding.AppendFloat64 buf x = buf ++ BigEndian.PutUint64 (f64_key x).
Proof.
  unfold Encoding.AppendFloat64, Encoding.AppendUint64, f64_key.
  destruct (f64_ge0 x); reflexivity.
Qed.

Lemma f64_magnitude_range (x : float64) : 0 <= f64_magnitude x < 2 ^ 63.
Proof. unfold f64_magnitude. apply Z.mod_pos_bound. lia. Qed.

(** [x >= 0] reads the value, not the sign bit: it holds of -0. *)
Lemma f64_ge0_rank (x : float64) :
  f64_isNaN x = false -> f64_ge0 x = (0 <=? f64_rank x).
Proof.
  intros Hx. unfold f64_ge0, SFleb.
  change (S754_zero false) with (f64_value f64_pos_zero).
  rewrite (f64_compare_rank f64_pos_zero x eq_refl Hx).
  change (f64_rank f64_pos_zero) with 0.
  destruct (Z.compare_spec 0 (f64_rank x)), (Z.leb_spec 0 (f64_rank x));
    try reflexivity; lia.
Qed.

Lemma f64_neg_zero_iff (x : float64) :
  is_float64 x ->
  (x = f64_neg_zero <-> f64_sign x = true /\ f64_magnitude x = 0).
Proof.
  intros Hx. pose proof (f64_bits_sign_magnitude x Hx) as Hb. split.
  - intros ->. split; reflexivity.
  - intros [Hs Hm]. rewrite Hs, Hm in Hb. destruct x as [u]. cbn in Hb.
    unfold f64_neg_zero. f_equal. lia.
Qed.

Lemma f64_key_rank (x : float64) :
  is_float64 x -> f64_isNaN x = false -> x <> f64_neg_zero ->
  f64_key x = f64_rank x + 2 ^ 63 - (if f64_sign x then 1 else 0)
  /\ f64_ge0 x = negb (f64_sign x).
Proof.
  intros Hx Hnan Hnz. unfold f64_key. rewrite (f64_ge0_rank x Hnan).
  pose proof (f64_bits_sign_magnitude x Hx) as Hb.
  pose proof (f64_magnitude_range x) as Hm.
  pose proof (f64_neg_zero_iff x Hx) as Hz.
  unfold f64_rank. change (Z.shiftl 1 63) with (2 ^ 63).
  change (Z.shiftl 1 64 - 1) with (2 ^ 64 - 1).
  destruct (f64_sign x).
  - assert (f64_magnitude x <> 0) by (intros E; apply Hnz, Hz; auto).
    destruct (Z.leb_spec 0 (- f64_magnitude x)); [lia|].
    rewrite lxor_all_ones by lia. split; [lia|reflexivity].
  - destruct (Z.leb_spec 0 (f64_magnitude x)); [|lia].
    rewrite lxor_signbit_low by lia. split; [lia|reflexivity].
Qed.

Lemma f64_key_range (x : float64) :
  is_float64 x -> is_uint64 (f64_key x).
Proof.
  unfold is_float64, is_uint64, f64_key. intros Hx.
  change (Z.shiftl 1 63) with (2 ^ 63).
  change (Z.shiftl 1 64 - 1) with (2 ^ 64 - 1).
  destruct (f64_ge0 x).
  - destruct (Z.lt_ge_cases (Float64bits x) (2 ^ 63)).
    + rewrite lxor_signbit_low; lia.
    + rewrite lxor_signbit_high; lia.
  - rewrite lxor_all_ones; lia.
Qed.

(** X7. Every float64 that is neither a NaN nor -0 is decoded back, bit
    for bit, from its encoding on an empty buffer. *)
Lemma DecodeFloat64_AppendFloat64 (x : float64) :
  is_float64 x -> f64_isNaN x = false -> x <> f64_neg_zero ->
  Encoding.DecodeFloat64 (Encoding.AppendFloat64 [] x) = Returns (x, None).
Proof.
  intros Hx Hnan Hnz.
  destruct (f64_key_rank x Hx Hnan Hnz) as [Hkey _].
  pose proof (f64_key_range x Hx) as Hkr.
  rewrite AppendFloat64_key. cbn [app]. unfold Encoding.DecodeFloat64.
  change (length (BigEndian.PutUint64 (f64_key x)) <? 8)%nat with false.
  cbv iota. rewrite <- (app_nil_r (BigEndian.PutUint64 _)).
  rewrite Uint64_PutUint64 by exact Hkr.
  cbn [mbind outcome_bind].
  pose proof (f64_bits_sign_magnitude x Hx) as Hb.
  pose proof (f64_magnitude_range x) as Hm.
  change (Z.shiftl 1 63) with (2 ^ 63).
  change (Z.shiftl 1 64 - 1) with (2 ^ 64 - 1).
  unfold f64_rank in Hkey. destruct x as [u]. cbn [Float64bits] in *.
  destruct (f64_sign {| Float64bits := u |}).
  - assert (Hlow : 0 <= f64_key {| Float64bits := u |} < 2 ^ 63) by lia.
    rewrite (land_signbit_low _ Hlow). cbn [Z.eqb negb].
    rewrite lxor_all_ones by lia. do 2 f_equal. f_equal. lia.
  - assert (Hhigh : 2 ^ 63 <= f64_key {| Float64bits := u |} < 2 ^ 64) by lia.
    rewrite (land_signbit_high _ Hhigh). cbn [Z.eqb negb].
    change (2 ^ 63 =? 0) with false. cbn [negb].
    rewrite lxor_signbit_high by lia. do 2 f_equal. f_equal. lia.
Qed.

Lemma f64_key_neg_zero : f64_key f64_neg_zero = 0.
Proof. reflexivity. Qed.

(** X8. The encoding is increasing as long as the larger value is not -0
    (and neither is a NaN): if [a < b] as float64 values, the bytes of [a]
    are below the bytes of [b]. *)
Lemma AppendFloat64_increasing (a b : float64) :
  is_float64 a -> is_float64 b ->
  f64_isNaN a = false -> f64_isNaN b = false ->
  b <> f64_neg_zero ->
  f64_lt a b = true ->
  bytes_lt (Encoding.AppendFloat64 [] a) (Encoding.AppendFloat64 [] b) = true.
Proof.
  intros Ha Hb Hna Hnb Hzb Hlt.
  rewrite !AppendFloat64_key. cbn [app].
  rewrite bytes_lt_be_value by reflexivity.
  rewrite !be_value_PutUint64 by (apply f64_key_range; assumption).
  destruct (f64_key_rank b Hb Hnb Hzb) as [-> _].
  unfold f64_lt, SFltb in Hlt. rewrite (f64_compare_rank a b Hna Hnb) in Hlt.
  destruct (Z.compare_spec (f64_rank a) (f64_rank b)) as [|Hr|];
    try discriminate.
  apply Z.ltb_lt.
  pose proof (f64_magnitude_range a). pose proof (f64_magnitude_range b).
  pose proof (f64_neg_zero_iff a Ha) as Hia.
  destruct (f64_sign a) eqn:Hsa, (Z.eq_dec (f64_magnitude a) 0) as [Hma|Hma].
  - assert (a = f64_neg_zero) as -> by (apply Hia; auto).
    rewrite f64_key_neg_zero. change (f64_rank f64_neg_zero) with 0 in Hr.
    unfold f64_rank in *. destruct (f64_sign b); lia.
  - assert (Hza : a <> f64_neg_zero) by (intros E; apply Hia in E; tauto).
    destruct (f64_key_rank a Ha Hna Hza) as [-> _].
    unfold f64_rank in *. rewrite Hsa in *. destruct (f64_sign b); lia.
  - assert (Hza : a <> f64_neg_zero)
      by (intros E; apply Hia in E; destruct E; discriminate).
    destruct (f64_key_rank a Ha Hna Hza) as [-> _].
    unfold f64_rank in *. rewrite Hsa in *. destruct (f64_sign b); lia.
  - assert (Hza : a <> f64_neg_zero)
      by (intros E; apply Hia in E; destruct E; discriminate).
    destruct (f64_key_rank a Ha Hna Hza) as [-> _].
    unfold f64_rank in *. rewrite Hsa in *. destruct (f64_sign b); lia.
Qed.

(** *** Claims on the scalar codec *)

(** C1 (the code departs from it at -0). The float64 -0 is not a NaN, yet
    decoding its encoding does not give it back: [AppendFloat64] tests
    [x >= 0], which holds of -0, so only the sign bit is flipped and eight
    zero bytes are written; [DecodeFloat64] sees a clear high bit, flips
    all 64 bits and returns the all-ones pattern, a NaN. *)
Theorem AppendFloat64_neg_zero_not_restored :
  is_float64 f64_neg_zero /\ f64_isNaN f64_neg_zero = false /\
  Encoding.AppendFloat64 [] f64_neg_zero = BigEndian.PutUint64 0 /\
  Encoding.DecodeFloat64 (Encoding.AppendFloat64 [] f64_neg_zero)
    = Returns (Float64frombits (2 ^ 64 - 1), None) /\
  Float64frombits (2 ^ 64 - 1) <> f64_neg_zero /\
  f64_isNaN (Float64frombits (2 ^ 64 - 1)) = true.
Proof.
  repeat split; try reflexivity; try (cbn; lia); discriminate.
Qed.

(** C2 (the code departs from it at -0). -1 < -0 as float64 values, but
    the encoding of -1 is not below the encoding of -0, it is above it:
    -0 has its sign bit set and still gets only that bit flipped, because
    the encoder branches on [x >= 0] and not on the sign bit. *)
Theorem AppendFloat64_order_broken_at_neg_zero :
  f64_lt f64_minus_one f64_neg_zero = true /\
  f64_isNaN f64_minus_one = false /\ f64_isNaN f64_neg_zero = false /\
  bytes_lt (Encoding.AppendFloat64 [] f64_minus_one)
           (Encoding.AppendFloat64 [] f64_neg_zero) = false /\
  bytes_lt (Encoding.AppendFloat64 [] f64_neg_zero)
           (Encoding.AppendFloat64 [] f64_minus_one) = true /\
  f64_sign f64_neg_zero = true /\
  Encoding.AppendFloat64 [] f64_neg_zero
    = BigEndian.PutUint64 (Z.lxor (Float64bits f64_neg_zero) (Z.shiftl 1 63)) /\
  Encoding.AppendFloat64 [] f64_neg_zero
    <> BigEndian.PutUint64
         (Z.lxor (Float64bits f64_neg_zero) (Z.shiftl 1 64 - 1)).
Proof.
  repeat split; try reflexivity. discriminate.
Qed.

(** C5. For every int64 [x], [AppendInt64] appends the big-endian uint64
    representation of [x + 2^63], and [DecodeInt64] of the bytes so
    encoded on an empty buffer returns [x] without error. *)
Theorem DecodeInt64_AppendInt64 (x : Z) :
  is_int64 x ->
  (forall buf, Encoding.AppendInt64 buf x
               = Encoding.AppendUint64 buf (x + 2 ^ 63)) /\
  is_uint64 (x + 2 ^ 63) /\
  be_value (BigEndian.PutUint64 (x + 2 ^ 63)) = x + 2 ^ 63 /\
  Encoding.DecodeInt64 (Encoding.AppendInt64 [] x) = Returns (x, None).
Proof.
  unfold is_int64. intros Hx.
  assert (Hu : is_uint64 (x + 2 ^ 63)) by (unfold is_uint64; lia).
  assert (Hbias : wrap64 (wrap64 (to_uint64 x + MaxInt64) + 1) = x + 2 ^ 63).
  { unfold to_uint64, wrap64, MaxInt64.
    change (2 ^ 64) with 18446744073709551616.
    change (2 ^ 63) with 9223372036854775808 in *.
    Z.to_euclidean_division_equations; lia. }
  assert (Happ : forall buf, Encoding.AppendInt64 buf x
                             = Encoding.AppendUint64 buf (x + 2 ^ 63)).
  { intros buf. unfold Encoding.AppendInt64. rewrite Hbias. reflexivity. }
  repeat split; try apply Hu; try exact Happ.
  - apply be_value_PutUint64, Hu.
  - rewrite Happ. unfold Encoding.AppendUint64. cbn [app].
    unfold Encoding.DecodeInt64, Encoding.DecodeUint64.
    change (length (BigEndian.PutUint64 (x + 2 ^ 63)) <? 8)%nat with false.
    cbv iota. rewrite <- (app_nil_r (BigEndian.PutUint64 _)).
    rewrite Uint64_PutUint64 by exact Hu.
    cbn [mbind outcome_bind]. do 2 f_equal.
    unfold to_int64, wrap64, MaxInt64.
    change (2 ^ 64) with 18446744073709551616.
    change (2 ^ 63) with 9223372036854775808 in *.
    Z.to_euclidean_division_equations; lia.
Qed.

Lemma DecodeInt64_AppendInt64_witness :
  is_int64 MinInt64 /\
  Encoding.DecodeInt64 (Encoding.AppendInt64 [] MinInt64)
    = Returns (MinInt64, None).
Proof.
  assert (H : is_int64 MinInt64) by (unfold is_int64, MinInt64; lia).
  split; [exact H|].
  exact (proj2 (proj2 (proj2 (DecodeInt64_AppendInt64 MinInt64 H)))).
Defined.

Example DecodeInt64_MaxInt64 :
  Encoding.AppendInt64 [] MaxInt64
    = [Byte.xff; Byte.xff; Byte.xff; Byte.xff;
       Byte.xff; Byte.xff; Byte.xff; Byte.xff] /\
  Encoding.DecodeInt64 (Encoding.AppendInt64 [] MaxInt64)
    = Returns (MaxInt64, None).
Proof. split; reflexivity. Qed.

Example AppendInt64_MinInt64 :
  Encoding.AppendInt64 [] MinInt64
    = [Byte.x00; Byte.x00; Byte.x00; Byte.x00;
       Byte.x00; Byte.x00; Byte.x00; Byte.x00].
Proof. reflexivity. Qed.

Lemma Uint64_returns (buf : list byte) :
  (8 <= length buf)%nat -> exists x, BigEndian.Uint64 buf = Returns x.
Proof.
  intros Hlen.
  do 8 (destruct buf as [|? buf]; [cbn in Hlen; lia|]).
  eexists. reflexivity.
Qed.

(** C9. None of the four scalar decoders panics, and each returns an error
    exactly on a short buffer: [DecodeBool] iff the buffer is empty,
    [DecodeUint64], [DecodeInt64] and [DecodeFloat64] iff it holds fewer
    than 8 bytes. *)
Theorem decoders_error_iff_short (buf : list byte) :
  (exists v err, Encoding.DecodeBool buf = Returns (v, err)
                 /\ (err <> None <-> length buf = 0%nat)) /\
  (exists v err, Encoding.DecodeUint64 buf = Returns (v, err)
                 /\ (err <> None <-> (length buf < 8)%nat)) /\
  (exists v err, Encoding.DecodeInt64 buf = Returns (v, err)
                 /\ (err <> None <-> (length buf < 8)%nat)) /\
  (exists v err, Encoding.DecodeFloat64 buf = Returns (v, err)
                 /\ (err <> None <-> (length buf < 8)%nat)).
Proof.
  assert (Hu : exists v err, Encoding.DecodeUint64 buf = Returns (v, err)
                 /\ (err <> None <-> (length buf < 8)%nat)).
  { unfold Encoding.DecodeUint64.
    destruct (Nat.ltb_spec (length buf) 8) as [Hlt|Hge].
    - do 2 eexists. split; [reflexivity|]. split; [auto|discriminate].
    - destruct (Uint64_returns buf Hge) as [x ->]. cbn.
      exists x, None. split; [reflexivity|]. split; [congruence|lia]. }
  repeat split.
  - unfold Encoding.DecodeBool. destruct buf as [|b buf]; cbn.
    + do 2 eexists. split; [reflexivity|]. split; [auto|discriminate].
    + do 2 eexists. split; [reflexivity|]. split; [congruence|discriminate].
  - exact Hu.
  - destruct Hu as (v & err & Hd & Hiff). unfold Encoding.DecodeInt64.
    rewrite Hd. cbn. do 2 eexists. split; [reflexivity|exact Hiff].
  - unfold Encoding.DecodeFloat64.
    destruct (Nat.ltb_spec (length buf) 8) as [Hlt|Hge].
    + do 2 eexists. split; [reflexivity|]. split; [auto|discriminate].
    + destruct (Uint64_returns buf Hge) as [x ->]. cbn.
      do 2 eexists. split; [reflexivity|]. split; [congruence|lia].
Qed.

(** C10. On a non-empty buffer [DecodeBool] returns without error, and the
    boolean is true exactly when the first byte is 0xFF; every other first
    byte, 0x00 and 0x01 included, gives false. *)
Theorem DecodeBool_first_byte (buf : list byte) :
  buf <> [] ->
  exists b v, buf !! 0%nat = Some b /\
    Encoding.DecodeBool buf = Returns (v, None) /\
    (v = true <-> byte.unsigned b = 255).
Proof.
  intros Hne. destruct buf as [|b buf]; [congruence|].
  exists b, (byte.unsigned b =? 255). repeat split.
  - apply Z.eqb_eq.
  - apply Z.eqb_eq.
Qed.

Lemma DecodeBool_first_byte_witness :
  exists b v, [Byte.x01; Byte.xff] !! 0%nat = Some b /\
    Encoding.DecodeBool [Byte.x01; Byte.xff] = Returns (v, None) /\
    (v = true <-> byte.unsigned b = 255).
Proof.
  apply (DecodeBool_first_byte [Byte.x01; Byte.xff]). discriminate.
Defined.

(** [AppendBool] writes 0xFE or 0xFF only, so 0x00 and 0x01 are bytes it
    never produces; [DecodeBool] takes them for false. *)
Lemma AppendBool_bytes (buf : list byte) (x : bool) :
  Encoding.AppendBool buf x = buf ++ [if x then Byte.xff else Byte.xfe].
Proof. destruct x; reflexivity. Qed.

Example DecodeBool_0x00 :
  Encoding.DecodeBool [Byte.x00] = Returns (false, None).
Proof. reflexivity. Qed.

Example DecodeBool_0x01 :
  Encoding.DecodeBool [Byte.x01] = Returns (false, None).
Proof. reflexivity. Qed.

Lemma DecodeBool_AppendBool (x : bool) :
  Encoding.DecodeBool (Encoding.AppendBool [] x) = Returns (x, None).
Proof. destruct x; reflexivity. Qed.

(** *** Base64: digits and lexicographic order *)

Lemma bytes_lt_zlex (a : list byte) :
  forall b, bytes_lt a b = zlex (map byte.unsigned a) (map byte.unsigned b).
Proof.
  induction a as [|x a IH]; intros [|y b]; cbn [bytes_lt zlex map];
    try reflexivity.
  rewrite IH. reflexivity.
Qed.

Lemma digit_range (v shift : Z) : 0 <= digit v shift < 64.
Proof. unfold digit. apply Z.mod_pos_bound. lia. Qed.

Lemma sextet_digit (alphabet : list byte) (v shift : Z) :
  0 <= shift ->
  Base64.sextet alphabet v shift = Base64.encode alphabet (digit v shift).
Proof.
  intros Hs. unfold Base64.sextet, digit. change 63 with (Z.ones 6).
  rewrite Z.land_ones, Z.shiftr_div_pow2 by lia. reflexivity.
Qed.

Lemma lor_shifted_bytes (x y z : Z) :
  0 <= x < 256 -> 0 <= y < 256 -> 0 <= z < 256 ->
  Z.lor (Z.lor (Z.shiftl x 16) (Z.shiftl y 8)) z = x * 65536 + y * 256 + z.
Proof.
  intros Hx Hy Hz. rewrite !Z.shiftl_mul_pow2 by lia.
  change (2 ^ 16) with 65536. change (2 ^ 8) with 256.
  rewrite (Z.lor_comm (x * 65536)).
  rewrite (lor_add_high (y * 256) (x * 65536) 16);
    [|lia|change (2 ^ 16) with 65536; lia
     |change (2 ^ 16) with 65536; Z.to_euclidean_division_equations; lia].
  rewrite Z.lor_comm.
  rewrite (lor_add_high z (y * 256 + x * 65536) 8);
    [|lia|change (2 ^ 8) with 256; lia
     |change (2 ^ 8) with 256; Z.to_euclidean_division_equations; lia].
  lia.
Qed.

Lemma group3_value (x y z : byte) :
  Z.lor (Z.lor (Z.shiftl (byte.unsigned x) 16) (Z.shiftl (byte.unsigned y) 8))
        (byte.unsigned z)
  = byte.unsigned x * 65536 + byte.unsigned y * 256 + byte.unsigned z.
Proof. apply lor_shifted_bytes; apply byte_range. Qed.

Lemma group2_value (x y : byte) :
  Z.lor (Z.shiftl (byte.unsigned x) 16) (Z.shiftl (byte.unsigned y) 8)
  = byte.unsigned x * 65536 + byte.unsigned y * 256.
Proof.
  rewrite <- (Z.lor_0_r (Z.lor _ _)).
  rewrite lor_shifted_bytes by (try apply byte_range; lia). lia.
Qed.

Lemma group1_value (x : byte) :
  Z.shiftl (byte.unsigned x) 16 = byte.unsigned x * 65536.
Proof. rewrite Z.shiftl_mul_pow2 by lia. reflexivity. Qed.

(** Induction on a byte string by groups of three. *)
Lemma list_ind3 {A : Type} (P : list A -> Prop) :
  P [] -> (forall x, P [x]) -> (forall x y, P [x; y]) ->
  (forall x y z l, P l -> P (x :: y :: z :: l)) ->
  forall l, P l.
Proof.
  intros H0 H1 H2 H3.
  fix IH 1. intros [|x [|y [|z l]]].
  - exact H0.
  - apply H1.
  - apply H2.
  - apply H3, IH.
Qed.

Lemma Encode_digits (alphabet : list byte) (src : list byte) :
  Base64.Encode alphabet src = map (Base64.encode alphabet) (digits src).
Proof.
  induction src as [|x|x y|x y z l IH] using list_ind3.
  - reflexivity.
  - cbn [Base64.Encode digits map].
    rewrite !sextet_digit, group1_value by lia. reflexivity.
  - cbn [Base64.Encode digits map].
    rewrite !sextet_digit, group2_value by lia. reflexivity.
  - cbn [Base64.Encode digits map app].
    rewrite !sextet_digit, group3_value, IH by lia. reflexivity.
Qed.

Lemma digits_range (src : list byte) :
  Forall (fun d => 0 <= d < 64) (digits src).
Proof.
  induction src as [|x|x y|x y z l IH] using list_ind3; cbn [digits app];
    repeat constructor; try apply digit_range; try exact IH.
Qed.

Lemma digits_increasing (a : list byte) :
  forall b,
  zlex (map byte.unsigned a) (map byte.unsigned b) = true ->
  zlex (digits a) (digits b) = true.
Proof.
  induction a as [|x|x y|x y z l IH] using list_ind3;
    intros [|x' [|y' [|z' l']]]; cbn [map zlex]; try discriminate;
    try reflexivity; intros H;
    pose proof (byte_range x); pose proof (byte_range x');
    try pose proof (byte_range y); try pose proof (byte_range y');
    try pose proof (byte_range z); try pose proof (byte_range z').
  all: try (specialize (IH l');
            destruct (zlex (map byte.unsigned l) (map byte.unsigned l'));
            [specialize (IH eq_refl)|clear IH]).
  all: cbn [digits app zlex].
  all: try rewrite IH.
  all: try destruct (zlex (digits l) (digits l')).
  all: unfold digit.
  all: change (2 ^ 18) with 262144; change (2 ^ 12) with 4096;
       change (2 ^ 6) with 64; change (2 ^ 0) with 1.
  all: rewrite ?andb_false_r, ?orb_false_r, ?andb_true_r in *.
  all: bool_to_prop.
  all: Z.to_euclidean_division_equations.
  all: lia.
Qed.

(** *** Base64: alphabets *)

Lemma In_range64 (i : Z) : 0 <= i < 64 -> In i range64.
Proof.
  intros Hi. unfold range64. apply in_map_iff. exists (Z.to_nat i).
  split; [lia|]. apply in_seq. lia.
Qed.

Lemma base64Encoding_increasing :
  alphabet_increasing Encoding.base64Encoding = true.
Proof. vm_compute. reflexivity. Qed.

Lemma base64Encoding_decodes :
  alphabet_decodes Encoding.base64Encoding = true.
Proof. vm_compute. reflexivity. Qed.

Section Alphabet.

Variable alphabet : list byte.
Hypothesis Hinc : alphabet_increasing alphabet = true.
Hypothesis Hdec : alphabet_decodes alphabet = true.

Lemma encode_ltb (i j : Z) :
  0 <= i < 64 -> 0 <= j < 64 ->
  (byte.unsigned (Base64.encode alphabet i)
   <? byte.unsigned (Base64.encode alphabet j)) = (i <? j).
Proof using Hinc.
  intros Hi Hj. unfold alphabet_increasing in Hinc.
  rewrite forallb_forall in Hinc.
  specialize (Hinc i (In_range64 i Hi)). rewrite forallb_forall in Hinc.
  specialize (Hinc j (In_range64 j Hj)). apply eqb_prop in Hinc. exact Hinc.
Qed.

Lemma encode_eqb (i j : Z) :
  0 <= i < 64 -> 0 <= j < 64 ->
  (byte.unsigned (Base64.encode alphabet i)
   =? byte.unsigned (Base64.encode alphabet j)) = (i =? j).
Proof using Hinc.
  intros Hi Hj.
  pose proof (encode_ltb i j Hi Hj) as Hij.
  pose proof (encode_ltb j i Hj Hi) as Hji.
  destruct (Z.eqb_spec i j) as [->|Hne]; [apply Z.eqb_refl|].
  apply Z.eqb_neq.
  destruct (Z.ltb_spec i j), (Z.ltb_spec j i); try lia;
    apply Z.ltb_lt in Hij || apply Z.ltb_lt in Hji; lia.
Qed.

Lemma decodeMap_encode (i : Z) :
  0 <= i < 64 -> Base64.decodeMap alphabet (Base64.encode alphabet i) = i.
Proof using Hdec.
  intros Hi. unfold alphabet_decodes in Hdec.
  rewrite forallb_forall in Hdec.
  apply Z.eqb_eq, Hdec, In_range64, Hi.
Qed.

Lemma bytes_lt_map_encode (d1 : list Z) :
  forall d2,
  Forall (fun d => 0 <= d < 64) d1 -> Forall (fun d => 0 <= d < 64) d2 ->
  bytes_lt (map (Base64.encode alphabet) d1) (map (Base64.encode alphabet) d2)
  = zlex d1 d2.
Proof using Hinc.
  induction d1 as [|x d1 IH]; intros [|y d2] H1 H2; cbn [map bytes_lt zlex];
    try reflexivity.
  inversion H1; inversion H2; subst.
  rewrite encode_ltb, encode_eqb, IH by assumption. reflexivity.
Qed.

(** An increasing alphabet makes [Encode] increasing. *)
Lemma Encode_increasing (a b : list byte) :
  bytes_lt a b = true ->
  bytes_lt (Base64.Encode alphabet a) (Base64.Encode alphabet b) = true.
Proof using Hinc.
  intros Hlt. rewrite !Encode_digits.
  rewrite bytes_lt_map_encode by apply digits_range.
  apply digits_increasing. rewrite <- bytes_lt_zlex. exact Hlt.
Qed.

End Alphabet.

(** *** Base64: decoding what was encoded *)

Lemma byte_of_Z_eq (z : Z) (b : byte) :
  z mod 256 = byte.unsigned b -> byte.of_Z z = b.
Proof.
  intros H. apply byte.unsigned_inj. rewrite byte_of_Z_mod. exact H.
Qed.

Lemma quantum_value (d0 d1 d2 d3 : Z) :
  0 <= d0 < 64 -> 0 <= d1 < 64 -> 0 <= d2 < 64 -> 0 <= d3 < 64 ->
  let v := d0 * 262144 + d1 * 4096 + d2 * 64 + d3 in
  Base64.quantum d0 d1 d2 d3
  = [byte.of_Z (v / 65536); byte.of_Z (v / 256); byte.of_Z v].
Proof.
  intros H0 H1 H2 H3 v. unfold Base64.quantum.
  assert (Hv : Z.lor (Z.lor (Z.lor (Z.shiftl d0 18) (Z.shiftl d1 12))
                            (Z.shiftl d2 6)) d3 = v).
  { rewrite !Z.shiftl_mul_pow2 by lia.
    change (2 ^ 18) with 262144. change (2 ^ 12) with 4096.
    change (2 ^ 6) with 64.
    rewrite (Z.lor_comm (d0 * 262144)).
    rewrite (lor_add_high (d1 * 4096) (d0 * 262144) 18);
      [|lia|change (2 ^ 18) with 262144; lia
       |change (2 ^ 18) with 262144; Z.to_euclidean_division_equations; lia].
    rewrite (Z.lor_comm _ (d2 * 64)).
    rewrite (lor_add_high (d2 * 64) _ 12);
      [|lia|change (2 ^ 12) with 4096; lia
       |change (2 ^ 12) with 4096; Z.to_euclidean_division_equations; lia].
    rewrite (Z.lor_comm _ d3).
    rewrite (lor_add_high d3 _ 6);
      [|lia|change (2 ^ 6) with 64; lia
       |change (2 ^ 6) with 64; Z.to_euclidean_division_equations; lia].
    subst v. lia. }
  rewrite Hv, !Z.shiftr_div_pow2 by lia.
  change (2 ^ 16) with 65536. change (2 ^ 8) with 256.
  change (2 ^ 0) with 1. rewrite Z.div_1_r. reflexivity.
Qed.

Section Roundtrip.

Variable alphabet : list byte.
Hypothesis Hdec : alphabet_decodes alphabet = true.

(** One step of [decode_from] on the byte of a digit. *)
Lemma decode_from_digit (d : Z) (rest : list byte) (si : Z)
    (dbuf : list Z) (out : list byte) :
  0 <= d < 64 ->
  Base64.decode_from alphabet (Base64.encode alphabet d :: rest) si dbuf out
  = match dbuf with
    | [d0; d1; d2] =>
        Base64.decode_from alphabet rest (si + 1) []
          (out ++ Base64.quantum d0 d1 d2 d)
    | _ => Base64.decode_from alphabet rest (si + 1) (dbuf ++ [d]) out
    end.
Proof using Hdec.
  intros Hd. cbn [Base64.decode_from].
  rewrite (decodeMap_encode alphabet Hdec d Hd).
  destruct (Z.eqb_spec d 255); [lia|]. reflexivity.
Qed.

Lemma decode_from_Encode (src : list byte) :
  forall si out,
  Base64.decode_from alphabet (Base64.Encode alphabet src) si [] out
  = (out ++ src, None).
Proof using Hdec.
  induction src as [|x|x y|x y z l IH] using list_ind3; intros si out;
    rewrite Encode_digits; cbn [digits map app].
  - cbn. rewrite app_nil_r. reflexivity.
  - rewrite !decode_from_digit by apply digit_range.
    cbn [app Base64.decode_from].
    rewrite quantum_value by first [apply digit_range | lia].
    cbn [firstn]. do 3 f_equal. apply byte_of_Z_eq.
    pose proof (byte_range x). unfold digit.
    change (2 ^ 18) with 262144. change (2 ^ 12) with 4096.
    Z.to_euclidean_division_equations; lia.
  - rewrite !decode_from_digit by apply digit_range.
    cbn [app Base64.decode_from].
    rewrite quantum_value by first [apply digit_range | lia].
    cbn [firstn]. do 2 f_equal. 
    pose proof (byte_range x). pose proof (byte_range y). unfold digit.
    change (2 ^ 18) with 262144. change (2 ^ 12) with 4096.
    change (2 ^ 6) with 64.
    f_equal; [|f_equal]; apply byte_of_Z_eq;
      Z.to_euclidean_division_equations; lia.
  - rewrite !decode_from_digit by apply digit_range.
    cbn [app]. rewrite <- Encode_digits, IH.
    rewrite quantum_value by apply digit_range.
    rewrite <- app_assoc. do 2 f_equal. cbn [app].
    pose proof (byte_range x). pose proof (byte_range y).
    pose proof (byte_range z). unfold digit.
    change (2 ^ 18) with 262144. change (2 ^ 12) with 4096.
    change (2 ^ 6) with 64. change (2 ^ 0) with 1.
    f_equal; [|f_equal; [|f_equal]]; apply byte_of_Z_eq;
      Z.to_euclidean_division_equations; lia.
Qed.

Lemma Decode_Encode (src : list byte) :
  Base64.Decode alphabet (Base64.Encode alphabet src) = (src, None).
Proof using Hdec. unfold Base64.Decode. apply decode_from_Encode. Qed.

End Roundtrip.

Lemma Encode_length (alphabet : list byte) (src : list byte) :
  Z.of_nat (length (Base64.Encode alphabet src))
  = Base64.EncodedLen (Z.of_nat (length src)).
Proof.
  unfold Base64.EncodedLen.
  induction src as [|x|x y|x y z l IH] using list_ind3.
  - reflexivity.
  - reflexivity.
  - reflexivity.
  - cbn [Base64.Encode length app].
    rewrite !Nat2Z.inj_succ, IH.
    Z.to_euclidean_division_equations; lia.
Qed.

Lemma AppendBase64_Encode (buf data : list byte) :
  Encoding.AppendBase64 buf data
  = (buf ++ Base64.Encode Encoding.base64Encoding data, None).
Proof.
  unfold Encoding.AppendBase64.
  rewrite <- (Encode_length Encoding.base64Encoding), Nat2Z.id.
  rewrite firstn_all. reflexivity.
Qed.

(** C6. The unpadded base64 encoding over the alphabet [-], [0]-[9],
    [A]-[Z], [_], [a]-[z] keeps the lexicographic order of byte strings
    of any length: if [a] is below [b], [AppendBase64] of [a] on an empty
    buffer is below that of [b].  [AppendBase64] reports no error, and
    [DecodeBase64] gives back the bytes it encoded, whatever destination
    buffer it is handed. *)
Theorem AppendBase64_order_and_roundtrip (a b : list byte) :
  (bytes_lt a b = true ->
   bytes_lt (fst (Encoding.AppendBase64 [] a))
            (fst (Encoding.AppendBase64 [] b)) = true) /\
  snd (Encoding.AppendBase64 [] b) = None /\
  (forall dst, Encoding.DecodeBase64 dst (fst (Encoding.AppendBase64 [] b))
               = (b, None)).
Proof.
  rewrite !AppendBase64_Encode. cbn [fst snd app].
  split; [|split; [reflexivity|]].
  - apply (Encode_increasing _ base64Encoding_increasing).
  - intros dst. unfold Encoding.DecodeBase64.
    rewrite (Decode_Encode _ base64Encoding_decodes).
    rewrite firstn_app, firstn_all, Nat.sub_diag. cbn [firstn].
    rewrite app_nil_r. reflexivity.
Qed.

Lemma AppendBase64_order_and_roundtrip_witness :
  bytes_lt [Byte.x61] [Byte.x61; Byte.x00] = true /\
  bytes_lt (fst (Encoding.AppendBase64 [] [Byte.x61]))
           (fst (Encoding.AppendBase64 [] [Byte.x61; Byte.x00])) = true.
Proof.
  split; [reflexivity|].
  apply (proj1 (AppendBase64_order_and_roundtrip [Byte.x61] [Byte.x61; Byte.x00])).
  reflexivity.
Defined.

Example AppendBase64_hello :
  Encoding.AppendBase64 [] (list_byte_of_string "Hello, world")
  = (list_byte_of_string "H5KgQ5wg76SjRalZ", None).
Proof. reflexivity. Qed.

(** *** [Equal] is structural equality *)

Lemma Byte_eqb_eq (a b : byte) : Byte.eqb a b = true <-> a = b.
Proof.
  split.
  - apply Byte.byte_dec_bl.
  - apply Byte.byte_dec_lb.
Qed.

Lemma Value_eqb_eq : forall a b : Value, Value_eqb a b = true <-> a = b.
Proof.
  fix IH 1. intros a b.
  destruct a as [|x|x|x|x|x|x|x], b as [|y|y|y|y|y|y|y]; cbn [Value_eqb];
    try (split; [discriminate|intros [=]]); try (split; reflexivity).
  - rewrite Bool.eqb_true_iff. split; [intros ->|intros [=]]; auto.
  - rewrite Z.eqb_eq. split; [intros ->|intros [=]]; auto.
  - rewrite Z.eqb_eq. destruct x as [u], y as [w]. cbn.
    split; [intros ->|intros [=]]; auto.
  - rewrite String.eqb_eq. split; [intros ->|intros [=]]; auto.
  - revert y. induction x as [|c x IHx]; intros [|d y];
      try (split; [discriminate|intros [=]]); try (split; reflexivity).
    rewrite andb_true_iff, Byte_eqb_eq, IHx.
    split; [intros [-> [= ->]]|intros [= -> ->]]; auto.
  - revert y. induction x as [|c x IHx]; intros [|d y];
      try (split; [discriminate|intros [=]]); try (split; reflexivity).
    rewrite andb_true_iff, (IH c d), IHx.
    split; [intros [-> [= ->]]|intros [= -> ->]]; auto.
  - revert y. induction x as [|[k c] x IHx]; intros [|[k' d] y];
      try (split; [discriminate|intros [=]]); try (split; reflexivity).
    rewrite !andb_true_iff, String.eqb_eq, (IH c d), IHx.
    split; [intros [[-> ->] [= ->]]|intros [= -> -> ->]]; auto.
Qed.

Lemma PathFragment_eqb_eq (a b : PathFragment) :
  PathFragment_eqb a b = true <-> a = b.
Proof.
  destruct a as [s|i], b as [s'|i']; cbn [PathFragment_eqb];
    try (split; [discriminate|intros [=]]).
  - rewrite String.eqb_eq. split; [intros ->|intros [=]]; auto.
  - rewrite Z.eqb_eq. split; [intros ->|intros [=]]; auto.
Qed.

Lemma Path_eqb_eq (a : Path) : forall b, Path_eqb a b = true <-> a = b.
Proof.
  induction a as [|x a IH]; intros [|y b]; cbn [Path_eqb];
    try (split; [discriminate|intros [=]]); try (split; reflexivity).
  rewrite andb_true_iff, IH, PathFragment_eqb_eq.
  split; [intros [-> ->]|intros [= -> ->]]; auto.
Qed.

Lemma Equal_eq : forall a b : Expr, Equal a b = true <-> a = b.
Proof.
  fix IH 1. intros a b.
  destruct a, b; cbn [Equal];
    try (split; [discriminate|intros [=]]); try (split; reflexivity).
  - rewrite Value_eqb_eq. split; [intros ->|intros [=]]; auto.
  - rewrite Path_eqb_eq. split; [intros ->|intros [=]]; auto.
  - rewrite String.eqb_eq. split; [intros ->|intros [=]]; auto.
  - rewrite andb_true_iff, String.eqb_eq, (IH a b).
    split; [intros [-> ->]|intros [= -> ->]]; auto.
  - rewrite !andb_true_iff, String.eqb_eq, (IH a1 b1), (IH a2 b2).
    split; [intros [[-> ->] ->]|intros [= -> -> ->]]; auto.
  - rewrite andb_true_iff, String.eqb_eq.
    assert (Hargs : forall l1 l2,
      (fix eq_args (l1 l2 : list Expr) : bool :=
         match l1, l2 with
         | [], [] => true
         | e1 :: l1', e2 :: l2' => Equal e1 e2 && eq_args l1' l2'
         | _, _ => false
         end) l1 l2 = true <-> l1 = l2).
    { induction l1 as [|c x IHx]; intros [|d y];
        try (split; [discriminate|intros [=]]); try (split; reflexivity).
      rewrite andb_true_iff, (IH c d), IHx.
      split; [intros [-> ->]|intros [= -> ->]]; auto. }
    rewrite Hargs. split; [intros [-> ->]|intros [= -> ->]]; auto.
  - rewrite andb_true_iff, String.eqb_eq, (IH a b).
    split; [intros [-> ->]|intros [= -> ->]]; auto.
  - assert (Hpairs : forall l1 l2,
      (fix eq_pairs (l1 l2 : list (string * Expr)) : bool :=
         match l1, l2 with
         | [], [] => true
         | (k1, e1) :: l1', (k2, e2) :: l2' =>
             String.eqb k1 k2 && Equal e1 e2 && eq_pairs l1' l2'
         | _, _ => false
         end) l1 l2 = true <-> l1 = l2).
    { induction l1 as [|[k c] x IHx]; intros [|[k' d] y];
        try (split; [discriminate|intros [=]]); try (split; reflexivity).
      rewrite !andb_true_iff, String.eqb_eq, (IH c d), IHx.
      split; [intros [[-> ->] ->]|intros [= -> -> ->]]; auto. }
    rewrite Hpairs. split; [intros ->|intros [= ->]]; auto.
  - rewrite andb_true_iff, String.eqb_eq, (IH a b).
    split; [intros [-> ->]|intros [= -> ->]]; auto.
Qed.

(** *** The SELECT planner *)

Module QueryFacts.
Import Stream Query QuerySpec.

Lemma string_append_empty (s : string) : (s ++ "")%string = s.
Proof. induction s as [|c s IH]; cbn; [|rewrite IH]; reflexivity. Qed.

Lemma accepted_selectable (g pe : Expr) :
  accepted g pe = true -> selectable g pe = true.
Proof.
  unfold accepted, selectable. destruct pe; cbn; try discriminate.
  intros H. exact H.
Qed.

Lemma aggregators_loop_spec (pes : list Expr) :
  forall acc, aggregators_loop pes acc = acc ++ projected_aggregators pes.
Proof.
  induction pes as [|pe pes IH]; intros acc; cbn [aggregators_loop].
  - cbn. rewrite app_nil_r. reflexivity.
  - unfold projected_aggregators. cbn [omap list_omap].
    fold (projected_aggregators pes).
    destruct (as_NamedExpr pe) as [e|]; cbn [mbind option_bind].
    + destruct (as_AggregatorBuilder e) as [agg|].
      * rewrite IH, <- app_assoc. reflexivity.
      * apply IH.
    + apply IH.
Qed.

(** The GROUP BY loop either accepts every projection and has collected
    their aggregators, or stops at the first one it does not accept. *)
Lemma group_by_loop_spec (g : Expr) (pes : list Expr) :
  forall acc,
  (Forall (fun pe => accepted g pe = true) pes /\
   group_by_loop g pes acc = (None, acc ++ projected_aggregators pes)) \/
  (exists pre invalid post aggs,
     pes = pre ++ invalid :: post /\
     Forall (fun pe => accepted g pe = true) pre /\
     accepted g invalid = false /\
     group_by_loop g pes acc = (Some invalid, aggs)).
Proof.
  induction pes as [|pe pes IH]; intros acc.
  - left. split; [constructor|]. cbn. rewrite app_nil_r. reflexivity.
  - cbn [group_by_loop]. unfold projected_aggregators. cbn [omap list_omap].
    fold (projected_aggregators pes).
    destruct (as_NamedExpr pe) as [e|] eqn:Hne; cbn [mbind option_bind].
    + destruct (as_AggregatorBuilder e) as [agg|] eqn:Hagg.
      * destruct (IH (acc ++ [agg]))
          as [[Hall Hloop]|(pre & x & post & aggs & -> & Hpre & Hx & Hloop)].
        -- left. split.
           ++ constructor; [|exact Hall]. unfold accepted.
              rewrite Hne, Hagg. reflexivity.
           ++ rewrite Hloop, <- app_assoc. reflexivity.
        -- right. exists (pe :: pre), x, post, aggs. repeat split; auto.
           constructor; [|exact Hpre]. unfold accepted.
           rewrite Hne, Hagg. reflexivity.
      * destruct (Equal e g) eqn:Heq.
        -- destruct (IH acc)
             as [[Hall Hloop]|(pre & x & post & aggs & -> & Hpre & Hx & Hloop)].
           ++ left. split; [|exact Hloop].
              constructor; [|exact Hall]. unfold accepted.
              rewrite Hne, Hagg. exact Heq.
           ++ right. exists (pe :: pre), x, post, aggs. repeat split; auto.
              constructor; [|exact Hpre]. unfold accepted.
              rewrite Hne, Hagg. exact Heq.
        -- right. exists [], pe, pes, acc. repeat split; auto.
           unfold accepted. rewrite Hne, Hagg. exact Heq.
    + right. exists [], pe, pes, acc. repeat split; auto.
      unfold accepted. rewrite Hne. reflexivity.
Qed.

Section WithEvaluator.

Variable Eval : Expr -> Environment -> result Value.
Variable CastAsInteger : Value -> result Value.

Lemma plan_offset_Ok (stmt : SelectStmt) (s s' : Stream.Stream) :
  plan_offset Eval CastAsInteger stmt s = Ok s' ->
  s' = s ++ count_stage Eval CastAsInteger Skip (OffsetExpr stmt) /\
  (forall e, OffsetExpr stmt = Some e ->
             exists n, plan_time_integer Eval CastAsInteger e = Some n).
Proof.
  unfold plan_offset, count_stage, plan_time_integer.
  destruct (OffsetExpr stmt) as [e|].
  - destruct (Eval e empty_Environment) as [v| |] eqn:He; cbn;
      try discriminate.
    destruct (IsNumber (Value_Type v)) eqn:Hn; cbn; try discriminate.
    destruct (CastAsInteger v) as [[]| |] eqn:Hc; cbn; try discriminate.
    intros [= <-]. split; [reflexivity|]. intros ? [= <-].
    rewrite He, Hn, Hc. eauto.
  - intros [= <-]. split; [rewrite app_nil_r; reflexivity|discriminate].
Qed.

Lemma plan_limit_Ok (stmt : SelectStmt) (s s' : Stream.Stream) :
  plan_limit Eval CastAsInteger stmt s = Ok s' ->
  s' = s ++ count_stage Eval CastAsInteger Take (LimitExpr stmt) /\
  (forall e, LimitExpr stmt = Some e ->
             exists n, plan_time_integer Eval CastAsInteger e = Some n).
Proof.
  unfold plan_limit, count_stage, plan_time_integer.
  destruct (LimitExpr stmt) as [e|].
  - destruct (Eval e empty_Environment) as [v| |] eqn:He; cbn;
      try discriminate.
    destruct (IsNumber (Value_Type v)) eqn:Hn; cbn; try discriminate.
    destruct (CastAsInteger v) as [[]| |] eqn:Hc; cbn; try discriminate.
    intros [= <-]. split; [reflexivity|]. intros ? [= <-].
    rewrite He, Hn, Hc. eauto.
  - intros [= <-]. split; [rewrite app_nil_r; reflexivity|discriminate].
Qed.

Lemma plan_through_order_by_Ok (stmt : SelectStmt) (s : Stream.Stream) :
  plan_through_order_by stmt = Ok s ->
  s ++ count_stage Eval CastAsInteger Skip (OffsetExpr stmt)
    ++ count_stage Eval CastAsInteger Take (LimitExpr stmt)
  = spec_pipeline Eval CastAsInteger stmt.
Proof.
  unfold plan_through_order_by, spec_pipeline, Pipe, Stream.New, Stream.nil.
  destruct stmt as [t d w g o dir off lim pes]; cbn [TableName Query.Distinct
    WhereExpr GroupByExpr OrderBy OrderByDirection OffsetExpr LimitExpr
    ProjectionExprs].
  set (tail := count_stage Eval CastAsInteger Skip off ++ count_stage Eval CastAsInteger Take lim).
  destruct g as [g|].
  - destruct (group_by_loop_spec g pes [])
      as [[_ Hloop]|(pre & x & post & aggs & _ & _ & _ & Hloop)];
      rewrite Hloop; cbn [mbind result_bind]; [|discriminate].
    cbn [app].
    destruct (String.eqb t ""); cbn [negb];
      [destruct (no_tables_loop pes None); cbn; [discriminate|]|];
      destruct w, d, o as [p|]; try destruct (Token_eqb dir DESC) eqn:Hd;
      destruct dir; try discriminate Hd; cbn;
      intros [= <-]; rewrite <- ?app_assoc; reflexivity.
  - rewrite aggregators_loop_spec. cbn [app].
    destruct (projected_aggregators pes) as [|agg aggs]; cbn;
      destruct (String.eqb t ""); cbn [negb];
      try (destruct (no_tables_loop pes None); cbn; [discriminate|]);
      destruct w, d, o as [p|]; try destruct (Token_eqb dir DESC) eqn:Hd;
      destruct dir; try discriminate Hd; cbn;
      intros [= <-]; rewrite <- ?app_assoc; reflexivity.
Qed.

(** X19. [ToStream] does return a stream when the projections pass the
    GROUP BY test, no path or wildcard is projected without FROM, and
    OFFSET and LIMIT stand for integers. *)
Lemma ToStream_returns (stmt : SelectStmt) :
  (forall g, GroupByExpr stmt = Some g ->
             Forall (fun pe => accepted g pe = true) (ProjectionExprs stmt)) ->
  (TableName stmt = "" ->
   no_tables_loop (ProjectionExprs stmt) None = None) ->
  (forall e, OffsetExpr stmt = Some e ->
             exists n, plan_time_integer Eval CastAsInteger e = Some n) ->
  (forall e, LimitExpr stmt = Some e ->
             exists n, plan_time_integer Eval CastAsInteger e = Some n) ->
  exists ss, ToStream Eval CastAsInteger stmt = Ok ss.
Proof.
  intros Hgroup Htables Hoff Hlim.
  assert (H0 : exists s0, plan_through_order_by stmt = Ok s0).
  { unfold plan_through_order_by.
    destruct (GroupByExpr stmt) as [g|].
    - destruct (group_by_loop_spec g (ProjectionExprs stmt) [])
        as [[_ Hloop]|(pre & x & post & aggs & Hpes & _ & Hx & _)].
      + rewrite Hloop. cbn [mbind result_bind].
        destruct (String.eqb_spec (TableName stmt) "") as [Ht|Ht];
          [rewrite (Htables Ht)|]; cbn [mbind result_bind]; eauto.
      + specialize (Hgroup g eq_refl). rewrite Hpes in Hgroup.
        apply Forall_app in Hgroup as [_ Hgroup].
        apply Forall_cons in Hgroup as [Hacc _]. congruence.
    - destruct (0 <? length (aggregators_loop (ProjectionExprs stmt) []))%nat;
        cbn [mbind result_bind];
        (destruct (String.eqb_spec (TableName stmt) "") as [Ht|Ht];
          [rewrite (Htables Ht)|]); cbn [mbind result_bind]; eauto. }
  destruct H0 as [s0 H0]. unfold ToStream. rewrite H0.
  cbn [mbind result_bind].
  assert (H1 : exists s1, plan_offset Eval CastAsInteger stmt s0 = Ok s1).
  { unfold plan_offset. destruct (OffsetExpr stmt) as [e|]; [|eauto].
    destruct (Hoff e eq_refl) as [n Hn]. revert Hn. unfold plan_time_integer.
    destruct (Eval e empty_Environment) as [v| |]; try discriminate.
    cbn [mbind result_bind].
    destruct (IsNumber (Value_Type v)); try discriminate. cbn [negb].
    destruct (CastAsInteger v) as [[]| |]; try discriminate.
    cbn. eauto. }
  destruct H1 as [s1 H1]. rewrite H1. cbn [mbind result_bind].
  assert (H2 : exists s2, plan_limit Eval CastAsInteger stmt s1 = Ok s2).
  { unfold plan_limit. destruct (LimitExpr stmt) as [e|]; [|eauto].
    destruct (Hlim e eq_refl) as [n Hn]. revert Hn. unfold plan_time_integer.
    destruct (Eval e empty_Environment) as [v| |]; try discriminate.
    cbn [mbind result_bind].
    destruct (IsNumber (Value_Type v)); try discriminate. cbn [negb].
    destruct (CastAsInteger v) as [[]| |]; try discriminate.
    cbn. eauto. }
  destruct H2 as [s2 H2]. rewrite H2. cbn [mbind result_bind]. eauto.
Qed.

(** C3. Whenever [ToStream] produces a pipeline for a SELECT, its
    stages are, in this order and each only when its clause is
    present: SeqScan (FROM), Filter (WHERE), GroupBy then HashAggregate
    (GROUP BY) or HashAggregate alone (aggregators projected without
    GROUP BY), Project, Distinct (DISTINCT), Sort or SortReverse
    (ORDER BY, Sort unless the direction is DESC), Skip (OFFSET), Take
    (LIMIT); OFFSET and LIMIT, when present, do give their stage.
    Without FROM the pipeline has no scan stage. *)
Theorem ToStream_stage_order (stmt : SelectStmt) (ss : StreamStmt) :
  ToStream Eval CastAsInteger stmt = Ok ss ->
  Stream ss = spec_pipeline Eval CastAsInteger stmt /\
  ReadOnly ss = true /\
  (forall e, OffsetExpr stmt = Some e ->
             exists n, count_stage Eval CastAsInteger Skip (OffsetExpr stmt) = [Skip n]) /\
  (forall e, LimitExpr stmt = Some e ->
             exists n, count_stage Eval CastAsInteger Take (LimitExpr stmt) = [Take n]).
Proof.
  unfold ToStream.
  destruct (plan_through_order_by stmt) as [s0| |] eqn:H0;
    cbn [mbind result_bind]; try discriminate.
  destruct (plan_offset Eval CastAsInteger stmt s0) as [s1| |] eqn:H1;
    cbn [mbind result_bind]; try discriminate.
  destruct (plan_limit Eval CastAsInteger stmt s1) as [s2| |] eqn:H2;
    cbn [mbind result_bind]; try discriminate.
  intros [= <-]. cbn [Stream ReadOnly].
  apply plan_offset_Ok in H1 as [-> Hoff].
  apply plan_limit_Ok in H2 as [-> Hlim].
  apply plan_through_order_by_Ok in H0.
  repeat split.
  - rewrite <- app_assoc. exact H0.
  - intros e He. destruct (Hoff e He) as [n Hn]. exists n.
    unfold count_stage. rewrite He, Hn. reflexivity.
  - intros e He. destruct (Hlim e He) as [n Hn]. exists n.
    unfold count_stage. rewrite He, Hn. reflexivity.
Qed.

(** C4. Under GROUP BY, [ToStream] succeeds only if every projection
    passes the test of the loop, hence only if what each projects is
    an aggregator or equal to the GROUP BY expression.  As soon as one
    projection does not pass (and none that is neither an aggregator
    nor equal to the GROUP BY expression does), [ToStream] returns no
    stream but the error [field %q must appear in the GROUP BY clause
    or be used in an aggregate function] on the first such
    projection. *)
Theorem ToStream_group_by_projections (stmt : SelectStmt) (g : Expr) :
  GroupByExpr stmt = Some g ->
  (forall ss, ToStream Eval CastAsInteger stmt = Ok ss ->
     Forall (fun pe => accepted g pe = true /\ selectable g pe = true)
            (ProjectionExprs stmt)) /\
  (forall pe, selectable g pe = false -> accepted g pe = false) /\
  (Exists (fun pe => accepted g pe = false) (ProjectionExprs stmt) ->
   exists pre invalid post,
     ProjectionExprs stmt = pre ++ invalid :: post /\
     Forall (fun pe => accepted g pe = true) pre /\
     accepted g invalid = false /\
     ToStream Eval CastAsInteger stmt
       = Err (Errorf group_by_format [ArgExpr invalid]) /\
     forall quote,
       Error quote (Errorf group_by_format [ArgExpr invalid])
       = ("field " ++ quote (ArgExpr invalid) ++
          " must appear in the GROUP BY clause or be used in an aggregate function")%string).
Proof.
  intros Hg.
  assert (Hloop := group_by_loop_spec g (ProjectionExprs stmt) []).
  assert (Hfail : forall x aggs,
    group_by_loop g (ProjectionExprs stmt) [] = (Some x, aggs) ->
    ToStream Eval CastAsInteger stmt = Err (Errorf group_by_format [ArgExpr x])).
  { intros x aggs Hx. unfold ToStream, plan_through_order_by.
    rewrite Hg, Hx. reflexivity. }
  split; [|split].
  - intros ss Hok.
    destruct Hloop as [[Hall _]|(pre & x & post & aggs & _ & _ & _ & Hx)].
    + eapply Forall_impl; [exact Hall|]. cbn. intros pe Hpe.
      split; [exact Hpe|apply accepted_selectable, Hpe].
    + rewrite (Hfail x aggs Hx) in Hok. discriminate.
  - intros pe Hsel. destruct (accepted g pe) eqn:Hacc; [|reflexivity].
    apply accepted_selectable in Hacc. congruence.
  - intros Hex.
    destruct Hloop as [[Hall _]|(pre & x & post & aggs & Hpes & Hpre & Hx & Hl)].
    + apply List.Exists_exists in Hex as (pe & Hin & Hpe).
      rewrite List.Forall_forall in Hall. apply Hall in Hin.
      congruence.
    + exists pre, x, post. repeat split; auto. eapply Hfail, Hl.
Qed.

(** C7. Once the stages up to ORDER BY are planned, [ToStream]
    evaluates the OFFSET expression, then the LIMIT expression, in the
    empty environment.  A value that is not of a numeric type makes it
    return no stream but the error [offset expression must evaluate to
    a number, got %q] (resp. [limit ...]) on the type of the value; a
    numeric value is cast to an integer, which is handed to Skip
    (OFFSET) or Take (LIMIT). *)
Theorem ToStream_offset_limit (stmt : SelectStmt) (s0 : Stream.Stream) :
  plan_through_order_by stmt = Ok s0 ->
  (forall e v,
     OffsetExpr stmt = Some e -> Eval e empty_Environment = Ok v ->
     IsNumber (Value_Type v) = false ->
     ToStream Eval CastAsInteger stmt
       = Err (Errorf offset_format [ArgType (Value_Type v)]) /\
     forall quote,
       Error quote (Errorf offset_format [ArgType (Value_Type v)])
       = ("offset expression must evaluate to a number, got "
          ++ quote (ArgType (Value_Type v)))%string) /\
  (forall e v n,
     OffsetExpr stmt = Some e -> Eval e empty_Environment = Ok v ->
     IsNumber (Value_Type v) = true -> CastAsInteger v = Ok (IntegerV n) ->
     plan_offset Eval CastAsInteger stmt s0 = Ok (Pipe s0 (Skip n))) /\
  (forall s1 e v,
     plan_offset Eval CastAsInteger stmt s0 = Ok s1 ->
     LimitExpr stmt = Some e -> Eval e empty_Environment = Ok v ->
     IsNumber (Value_Type v) = false ->
     ToStream Eval CastAsInteger stmt
       = Err (Errorf limit_format [ArgType (Value_Type v)]) /\
     forall quote,
       Error quote (Errorf limit_format [ArgType (Value_Type v)])
       = ("limit expression must evaluate to a number, got "
          ++ quote (ArgType (Value_Type v)))%string) /\
  (forall s1 e v n,
     plan_offset Eval CastAsInteger stmt s0 = Ok s1 ->
     LimitExpr stmt = Some e -> Eval e empty_Environment = Ok v ->
     IsNumber (Value_Type v) = true -> CastAsInteger v = Ok (IntegerV n) ->
     ToStream Eval CastAsInteger stmt
       = Ok {| Stream := Pipe s1 (Take n); ReadOnly := true |}).
Proof.
  intros H0. unfold ToStream. rewrite H0. cbn [mbind result_bind].
  split; [|split; [|split]].
  - intros e v He Hv Hn.
    split; [|intros quote; cbn; rewrite string_append_empty; reflexivity].
    unfold plan_offset. rewrite He, Hv. cbn. rewrite Hn. reflexivity.
  - intros e v n He Hv Hn Hc.
    unfold plan_offset. rewrite He, Hv. cbn. rewrite Hn. cbn.
    rewrite Hc. reflexivity.
  - intros s1 e v H1 He Hv Hn.
    split; [|intros quote; cbn; rewrite string_append_empty; reflexivity].
    rewrite H1. cbn. unfold plan_limit. rewrite He, Hv. cbn.
    rewrite Hn. reflexivity.
  - intros s1 e v n H1 He Hv Hn Hc.
    rewrite H1. cbn. unfold plan_limit. rewrite He, Hv. cbn.
    rewrite Hn. cbn. rewrite Hc. reflexivity.
Qed.

End WithEvaluator.

Lemma ToStream_stage_order_witness :
  exists ss,
    ToStream Eval_constant CastAsInteger_integer select_grouped = Ok ss /\
    Stream ss
    = spec_pipeline Eval_constant CastAsInteger_integer select_grouped /\
    Stream ss
    = [SeqScan "t";
       Filter (Binary ">" (PathExpr path_a) (Literal (IntegerV 1)));
       GroupBy (PathExpr path_a); HashAggregate [count_star];
       Project (ProjectionExprs select_grouped); Stream.Distinct;
       SortReverse path_a; Skip 2; Take 10].
Proof.
  eexists. split; [reflexivity|]. split; [|reflexivity].
  apply (ToStream_stage_order Eval_constant CastAsInteger_integer
           select_grouped). reflexivity.
Defined.

Lemma ToStream_group_by_projections_witness :
  GroupByExpr select_ungrouped_field = Some (PathExpr path_a) /\
  exists pre invalid post,
    ProjectionExprs select_ungrouped_field = pre ++ invalid :: post /\
    Forall (fun pe => accepted (PathExpr path_a) pe = true) pre /\
    accepted (PathExpr path_a) invalid = false /\
    ToStream Eval_constant CastAsInteger_integer select_ungrouped_field
      = Err (Errorf group_by_format [ArgExpr invalid]) /\
    forall quote,
      Error quote (Errorf group_by_format [ArgExpr invalid])
      = ("field " ++ quote (ArgExpr invalid) ++
         " must appear in the GROUP BY clause or be used in an aggregate function")%string.
Proof.
  split; [reflexivity|].
  apply (ToStream_group_by_projections Eval_constant CastAsInteger_integer
           select_ungrouped_field (PathExpr path_a) eq_refl).
  apply Exists_cons_tl, Exists_cons_hd. reflexivity.
Defined.

Example ToStream_without_from :
  ToStream Eval_constant CastAsInteger_integer select_constant
  = Ok {| Stream := [Project (ProjectionExprs select_constant)];
          ReadOnly := true |}.
Proof. reflexivity. Qed.

Example ToStream_path_without_from :
  ToStream Eval_constant CastAsInteger_integer select_path_without_from
  = Err (errors_New "no tables specified").
Proof. reflexivity. Qed.

Example ToStream_ungrouped_field :
  ToStream Eval_constant CastAsInteger_integer select_ungrouped_field
  = Err (Errorf group_by_format
           [ArgExpr (NamedExpr (PathExpr [FieldName "b"]) "b")]).
Proof. reflexivity. Qed.

Lemma ToStream_offset_limit_witness :
  plan_through_order_by select_text_offset
    = Ok [SeqScan "t"; Project (ProjectionExprs select_text_offset)] /\
  ToStream Eval_constant CastAsInteger_integer select_text_offset
    = Err (Errorf offset_format [ArgType TextValue]).
Proof.
  split; [reflexivity|].
  apply (proj1 (ToStream_offset_limit Eval_constant CastAsInteger_integer
                  select_text_offset _ eq_refl)
               (Literal (TextV "x")) (TextV "x") eq_refl eq_refl eq_refl).
Defined.

End QueryFacts.

(** *** The VALUES tuples of INSERT *)

Module ParserFacts.
Import Parser ParserSpec.

Lemma fill_loop_spec (fields : list string) (exprs : list Expr) :
  length fields = length exprs ->
  forall m j, (j + m = length exprs)%nat ->
  fill_loop fields exprs (seq j m)
    (zip_with pair_of (take j fields) (take j exprs) ++ make m)
  = Ok (zip_with pair_of fields exprs).
Proof.
  intros Hlen. induction m as [|m IH]; intros j Hj.
  - cbn [seq fill_loop make repeat]. rewrite app_nil_r, Nat.add_0_r in *.
    rewrite !take_ge by lia. reflexivity.
  - cbn [seq fill_loop make repeat].
    destruct (lookup_lt_is_Some_2 fields j ltac:(lia)) as [k Hk].
    destruct (lookup_lt_is_Some_2 exprs j ltac:(lia)) as [v Hv].
    set (done := zip_with pair_of (take j fields) (take j exprs)).
    assert (Hdone : length done = j).
    { subst done. rewrite length_zip_with, !length_take. lia. }
    unfold at_index, assign. rewrite Hk. cbn [mbind result_bind].
    rewrite <- Hdone at 1. rewrite list_lookup_middle by reflexivity.
    cbn [mbind result_bind]. rewrite Hv. cbn [mbind result_bind K V].
    rewrite insert_app_r_alt by lia.
    rewrite Hdone, Nat.sub_diag. cbn [insert list_insert].
    rewrite <- Hdone at 1. rewrite list_lookup_middle by reflexivity.
    cbn [mbind result_bind K V].
    rewrite insert_app_r_alt by lia.
    rewrite Hdone, Nat.sub_diag. cbn [insert list_insert].
    fold (pair_of k v). fold (make m).
    specialize (IH (S j) ltac:(lia)).
    rewrite (take_S_r fields j k Hk), (take_S_r exprs j v Hv) in IH.
    rewrite zip_with_app in IH by (rewrite !length_take; lia).
    cbn [zip_with] in IH. rewrite <- app_assoc in IH. exact IH.
Qed.

Section WithScanner.

Variable Parser : Type.
Variable parseExprList : Token -> Token -> Parser -> result (list Expr) * Parser.

(** C8. With a field list of M names, a parenthesized tuple of N
    expressions, N different from M, makes [parseExprListWithFields]
    fail with the error [%d values for %d fields] on N and M, whose
    text is [N values for M fields]; a tuple of M expressions gives
    the KVPairs document whose i-th pair is the i-th field name with
    the i-th expression. *)
Theorem parseExprListWithFields_arity (fields : list string) (p p' : Parser)
    (exprs : list Expr) :
  parseExprList LPAREN RPAREN p = (Ok exprs, p') ->
  (length exprs <> length fields ->
   parseExprListWithFields Parser parseExprList fields p
     = (Err (Errorf values_format
               [ArgInt (Z.of_nat (length exprs));
                ArgInt (Z.of_nat (length fields))]), p') /\
   forall quote,
     Error quote (Errorf values_format
                    [ArgInt (Z.of_nat (length exprs));
                     ArgInt (Z.of_nat (length fields))])
     = (decimal (Z.of_nat (length exprs)) ++ " values for "
        ++ decimal (Z.of_nat (length fields)) ++ " fields")%string) /\
  (length exprs = length fields ->
   parseExprListWithFields Parser parseExprList fields p
     = (Ok {| Pairs := zip_with pair_of fields exprs |}, p') /\
   forall (i : nat) k v,
     fields !! i = Some k -> exprs !! i = Some v ->
     zip_with pair_of fields exprs !! i = Some {| K := k; V := Some v |}).
Proof.
  intros Hparse. unfold parseExprListWithFields. rewrite Hparse. split.
  - intros Hne. split.
    + destruct (Nat.eqb_spec (length fields) (length exprs)); [lia|].
      reflexivity.
    + intros quote. reflexivity.
  - intros Heq. split.
    + rewrite <- Heq, Nat.eqb_refl. cbn [negb].
      pose proof (fill_loop_spec fields exprs (eq_sym Heq)
                    (length exprs) 0%nat eq_refl) as Hfill.
      cbn [take app] in Hfill. rewrite !take_0 in Hfill.
      cbn [zip_with app] in Hfill. rewrite Hfill. reflexivity.
    + intros i k v Hk Hv. rewrite lookup_zip_with, Hk. cbn.
      rewrite Hv. reflexivity.
Qed.

End WithScanner.

Lemma parseExprListWithFields_arity_witness :
  let tuple := [Literal (IntegerV 1); Literal (IntegerV 2);
                Literal (IntegerV 3)] in
  parse_tuple LPAREN RPAREN tuple = (Ok tuple, []) /\
  parseExprListWithFields tuple_parser parse_tuple ["a"; "b"] tuple
    = (Err (Errorf values_format [ArgInt 3; ArgInt 2]), []) /\
  forall quote,
    Error quote (Errorf values_format [ArgInt 3; ArgInt 2])
    = "3 values for 2 fields".
Proof.
  intros tuple. split; [reflexivity|].
  apply (proj1 (parseExprListWithFields_arity tuple_parser parse_tuple
                  ["a"; "b"] tuple [] tuple eq_refl)).
  discriminate.
Defined.

Example parseExprListWithFields_pairs :
  parseExprListWithFields tuple_parser parse_tuple ["a"; "b"]
    [Literal (IntegerV 1); Literal (IntegerV 2)]
  = (Ok {| Pairs := [ {| K := "a"; V := Some (Literal (IntegerV 1)) |};
                      {| K := "b"; V := Some (Literal (IntegerV 2)) |} ] |},
     []).
Proof. reflexivity. Qed.

End ParserFacts.

(** * Further properties of the codec *)

Lemma AppendInt64_bias (buf : list byte) (x : Z) :
  is_int64 x ->
  Encoding.AppendInt64 buf x = buf ++ BigEndian.PutUint64 (x + 2 ^ 63).
Proof.
  unfold is_int64, Encoding.AppendInt64. intros Hx.
  do 2 f_equal. unfold to_uint64, wrap64, MaxInt64.
  change (2 ^ 64) with 18446744073709551616.
  change (2 ^ 63) with 9223372036854775808 in *.
  Z.to_euclidean_division_equations; lia.
Qed.

Lemma bytes_lt_irrefl (a : list byte) : bytes_lt a a = false.
Proof.
  induction a as [|x a IH]; cbn [bytes_lt]; [reflexivity|].
  rewrite Z.ltb_irrefl, Z.eqb_refl, IH. reflexivity.
Qed.

Lemma bytes_lt_asym (a : list byte) :
  forall b, bytes_lt a b = true -> bytes_lt b a = false.
Proof.
  induction a as [|x a IH]; intros [|y b]; cbn [bytes_lt];
    try discriminate; try reflexivity.
  intros H. apply orb_true_iff in H as [H|H].
  - apply Z.ltb_lt in H.
    destruct (Z.ltb_spec (byte.unsigned y) (byte.unsigned x)); [lia|].
    destruct (Z.eqb_spec (byte.unsigned y) (byte.unsigned x)); [lia|].
    reflexivity.
  - apply andb_true_iff in H as [He H]. apply Z.eqb_eq in He.
    rewrite He, Z.ltb_irrefl, Z.eqb_refl, (IH b H). reflexivity.
Qed.

Lemma bytes_lt_total (a : list byte) :
  forall b, bytes_lt a b = false -> a = b \/ bytes_lt b a = true.
Proof.
  induction a as [|x a IH]; intros [|y b]; cbn [bytes_lt]; auto;
    try discriminate.
  intros H. apply orb_false_iff in H as [Hlt H]. apply Z.ltb_ge in Hlt.
  destruct (Z.eqb_spec (byte.unsigned x) (byte.unsigned y)) as [He|Hne].
  - cbn [andb] in H. apply byte.unsigned_inj in He as ->.
    destruct (IH b H) as [->|Hb]; [left; reflexivity|right].
    rewrite Hb, Z.eqb_refl. apply orb_true_r.
  - right. apply orb_true_iff. left. apply Z.ltb_lt. lia.
Qed.

(** X1. A boolean is decoded back from its byte whatever follows it in
    the buffer, and the byte of [false] is below the byte of [true]. *)
Theorem AppendBool_roundtrip_and_order (a b : bool) (rest : list byte) :
  Encoding.DecodeBool (Encoding.AppendBool [] a ++ rest) = Returns (a, None) /\
  bytes_lt (Encoding.AppendBool [] a) (Encoding.AppendBool [] b)
    = negb a && b.
Proof. destruct a, b; split; reflexivity. Qed.

(** X2. A uint64 is decoded back from its eight bytes whatever follows
    them, and [AppendUint64] adds exactly these eight bytes after the
    buffer it is given. *)
Theorem DecodeUint64_AppendUint64 (x : Z) (buf rest : list byte) :
  is_uint64 x ->
  Encoding.AppendUint64 buf x = buf ++ Encoding.AppendUint64 [] x /\
  length (Encoding.AppendUint64 buf x) = (length buf + 8)%nat /\
  Encoding.DecodeUint64 (Encoding.AppendUint64 [] x ++ rest)
    = Returns (x, None).
Proof.
  intros Hx. unfold Encoding.AppendUint64. cbn [app].
  split; [reflexivity|]. split.
  - rewrite length_app. reflexivity.
  - unfold Encoding.DecodeUint64.
    change (length (BigEndian.PutUint64 x ++ rest) <? 8)%nat with false.
    cbv iota. rewrite Uint64_PutUint64 by exact Hx. reflexivity.
Qed.

Lemma DecodeUint64_AppendUint64_witness :
  is_uint64 (2 ^ 64 - 1) /\
  Encoding.DecodeUint64 (Encoding.AppendUint64 [] (2 ^ 64 - 1) ++ [Byte.x2a])
    = Returns (2 ^ 64 - 1, None).
Proof.
  assert (H : is_uint64 (2 ^ 64 - 1)) by (unfold is_uint64; lia).
  split; [exact H|].
  exact (proj2 (proj2 (DecodeUint64_AppendUint64 (2 ^ 64 - 1) [] [Byte.x2a] H))).
Defined.

(** X3. On uint64 the encoding is below exactly when the number is:
    the byte order of [AppendUint64] is the order of the values. *)
Theorem AppendUint64_order (x y : Z) :
  is_uint64 x -> is_uint64 y ->
  bytes_lt (Encoding.AppendUint64 [] x) (Encoding.AppendUint64 [] y)
    = (x <? y).
Proof.
  intros Hx Hy. unfold Encoding.AppendUint64. cbn [app].
  rewrite bytes_lt_be_value by reflexivity.
  rewrite !be_value_PutUint64 by assumption. reflexivity.
Qed.

Lemma AppendUint64_order_witness :
  is_uint64 255 /\ is_uint64 256 /\
  bytes_lt (Encoding.AppendUint64 [] 255) (Encoding.AppendUint64 [] 256)
    = (255 <? 256).
Proof.
  assert (H1 : is_uint64 255) by (unfold is_uint64; lia).
  assert (H2 : is_uint64 256) by (unfold is_uint64; lia).
  split; [exact H1|]. split; [exact H2|].
  exact (AppendUint64_order 255 256 H1 H2).
Defined.

(** X4. On int64 the encoding is below exactly when the number is, across
    negative and positive values alike. *)
Theorem AppendInt64_order (x y : Z) :
  is_int64 x -> is_int64 y ->
  bytes_lt (Encoding.AppendInt64 [] x) (Encoding.AppendInt64 [] y)
    = (x <? y).
Proof.
  intros Hx Hy. rewrite !AppendInt64_bias by assumption. cbn [app].
  rewrite bytes_lt_be_value by reflexivity.
  unfold is_int64 in *.
  rewrite !be_value_PutUint64 by (unfold is_uint64; lia).
  destruct (Z.ltb_spec x y), (Z.ltb_spec (x + 2 ^ 63) (y + 2 ^ 63));
    try reflexivity; lia.
Qed.

Lemma AppendInt64_order_witness :
  is_int64 (-1) /\ is_int64 0 /\
  bytes_lt (Encoding.AppendInt64 [] (-1)) (Encoding.AppendInt64 [] 0)
    = (-1 <? 0).
Proof.
  assert (H1 : is_int64 (-1)) by (unfold is_int64; lia).
  assert (H2 : is_int64 0) by (unfold is_int64; lia).
  split; [exact H1|]. split; [exact H2|].
  exact (AppendInt64_order (-1) 0 H1 H2).
Defined.

(** X5. Encoded int64 values can be laid end to end: [AppendInt64] adds
    eight bytes after the buffer, [DecodeInt64] reads the first eight and
    ignores the rest, so the first of two appended values is decoded from
    the buffer and the second from the buffer without its first eight
    bytes. *)
Theorem AppendInt64_concatenation (x y : Z) (rest : list byte) :
  is_int64 x -> is_int64 y ->
  Encoding.DecodeInt64 (Encoding.AppendInt64 [] x ++ rest)
    = Returns (x, None) /\
  length (Encoding.AppendInt64 rest x) = (length rest + 8)%nat /\
  let buf := Encoding.AppendInt64 (Encoding.AppendInt64 [] x) y in
  Encoding.DecodeInt64 buf = Returns (x, None) /\
  Encoding.DecodeInt64 (skipn 8 buf) = Returns (y, None).
Proof.
  intros Hx Hy.
  assert (Hdec : forall z tl, is_int64 z ->
    Encoding.DecodeInt64 (Encoding.AppendInt64 [] z ++ tl) = Returns (z, None)).
  { intros z tl Hz. rewrite AppendInt64_bias by exact Hz. cbn [app].
    unfold Encoding.DecodeInt64, Encoding.DecodeUint64.
    change (length (BigEndian.PutUint64 (z + 2 ^ 63) ++ tl) <? 8)%nat
      with false.
    cbv iota. unfold is_int64 in Hz.
    rewrite Uint64_PutUint64 by (unfold is_uint64; lia).
    cbn [mbind outcome_bind]. do 2 f_equal.
    unfold to_int64, wrap64, MaxInt64.
    change (2 ^ 64) with 18446744073709551616.
    change (2 ^ 63) with 9223372036854775808 in *.
    Z.to_euclidean_division_equations; lia. }
  split; [apply Hdec, Hx|]. split.
  - rewrite AppendInt64_bias by exact Hx. rewrite length_app. reflexivity.
  - cbv zeta. rewrite (AppendInt64_bias _ y Hy). split.
    + apply Hdec, Hx.
    + rewrite (AppendInt64_bias [] x Hx). cbn [app].
      assert (Hskip : forall v l, skipn 8 (BigEndian.PutUint64 v ++ l) = l)
        by reflexivity.
      rewrite Hskip. pose proof (Hdec y [] Hy) as H.
      rewrite (AppendInt64_bias [] y Hy), app_nil_r in H. exact H.
Qed.

Lemma AppendInt64_concatenation_witness :
  is_int64 (-7) /\ is_int64 MaxInt64 /\
  let buf := Encoding.AppendInt64 (Encoding.AppendInt64 [] (-7)) MaxInt64 in
  Encoding.DecodeInt64 buf = Returns (-7, None) /\
  Encoding.DecodeInt64 (skipn 8 buf) = Returns (MaxInt64, None).
Proof.
  assert (H1 : is_int64 (-7)) by (unfold is_int64; lia).
  assert (H2 : is_int64 MaxInt64) by (unfold is_int64, MaxInt64; lia).
  split; [exact H1|]. split; [exact H2|].
  exact (proj2 (proj2 (AppendInt64_concatenation (-7) MaxInt64 [] H1 H2))).
Defined.

(** X6. On a buffer shorter than eight bytes [DecodeInt64] returns the
    error of [DecodeUint64], and the value beside it is not 0 but
    [math.MinInt64]: the bias is subtracted from the zero that
    [DecodeUint64] returned before the error is looked at. *)
Theorem DecodeInt64_short_buffer (buf : list byte) :
  (length buf < 8)%nat ->
  Encoding.DecodeInt64 buf
    = Returns (MinInt64, Some (errors_New "cannot decode buffer to uint64")).
Proof.
  intros Hlen. unfold Encoding.DecodeInt64, Encoding.DecodeUint64.
  destruct (Nat.ltb_spec (length buf) 8) as [_|Hge]; [|lia].
  reflexivity.
Qed.

Lemma DecodeInt64_short_buffer_witness :
  (length [Byte.x80; Byte.x00; Byte.x00] < 8)%nat /\
  Encoding.DecodeInt64 [Byte.x80; Byte.x00; Byte.x00]
    = Returns (MinInt64, Some (errors_New "cannot decode buffer to uint64")).
Proof.
  assert (H : (length [Byte.x80; Byte.x00; Byte.x00] < 8)%nat) by (cbn; lia).
  split; [exact H|].
  exact (DecodeInt64_short_buffer [Byte.x80; Byte.x00; Byte.x00] H).
Defined.

Lemma DecodeFloat64_AppendFloat64_witness :
  is_float64 f64_minus_one /\ f64_isNaN f64_minus_one = false /\
  f64_minus_one <> f64_neg_zero /\
  Encoding.DecodeFloat64 (Encoding.AppendFloat64 [] f64_minus_one)
    = Returns (f64_minus_one, None).
Proof.
  assert (H1 : is_float64 f64_minus_one)
    by (unfold is_float64, is_uint64; cbn; lia).
  assert (H2 : f64_minus_one <> f64_neg_zero) by discriminate.
  split; [exact H1|]. split; [reflexivity|]. split; [exact H2|].
  exact (DecodeFloat64_AppendFloat64 f64_minus_one H1 eq_refl H2).
Defined.

Lemma AppendFloat64_increasing_witness :
  is_float64 f64_neg_zero /\ is_float64 f64_one /\
  f64_lt f64_neg_zero f64_one = true /\
  bytes_lt (Encoding.AppendFloat64 [] f64_neg_zero)
           (Encoding.AppendFloat64 [] f64_one) = true.
Proof.
  assert (H1 : is_float64 f64_neg_zero)
    by (unfold is_float64, is_uint64; cbn; lia).
  assert (H2 : is_float64 f64_one)
    by (unfold is_float64, is_uint64; cbn; lia).
  assert (H3 : f64_one <> f64_neg_zero) by discriminate.
  split; [exact H1|]. split; [exact H2|]. split; [reflexivity|].
  exact (AppendFloat64_increasing f64_neg_zero f64_one H1 H2
           eq_refl eq_refl H3 eq_refl).
Defined.

Lemma f64_magnitude_not_NaN (x : float64) :
  f64_isNaN x = false -> f64_magnitude x <= 2047 * 2 ^ 52.
Proof.
  unfold f64_isNaN, f64_value. rewrite f64_magnitude_fields.
  destruct (f64_fields_range x) as [He Hm].
  change (2 ^ 52) with 4503599627370496 in *.
  destruct (Z.eqb_spec (f64_exponent x) 0), (Z.eqb_spec (f64_mantissa x) 0),
    (Z.eqb_spec (f64_exponent x) 2047); intros H; try discriminate; lia.
Qed.

Lemma PutUint64_inj (u v : Z) :
  is_uint64 u -> is_uint64 v ->
  BigEndian.PutUint64 u = BigEndian.PutUint64 v -> u = v.
Proof.
  intros Hu Hv H. apply (f_equal be_value) in H.
  rewrite !be_value_PutUint64 in H by assumption. exact H.
Qed.

(** X9. Two float64 values that are not NaN and differ in their bits never
    get the same encoding, -0 and +0 included: the eight zero bytes that
    -0 is encoded to belong to no other such value. *)
Theorem AppendFloat64_injective (a b : float64) :
  is_float64 a -> is_float64 b ->
  f64_isNaN a = false -> f64_isNaN b = false ->
  Encoding.AppendFloat64 [] a = Encoding.AppendFloat64 [] b -> a = b.
Proof.
  intros Ha Hb Hna Hnb Henc. rewrite !AppendFloat64_key in Henc.
  cbn [app] in Henc.
  apply PutUint64_inj in Henc; try (apply f64_key_range; assumption).
  pose proof (f64_magnitude_range a) as Hma.
  pose proof (f64_magnitude_range b) as Hmb.
  pose proof (f64_magnitude_not_NaN a Hna) as Hla.
  pose proof (f64_magnitude_not_NaN b Hnb) as Hlb.
  pose proof (f64_bits_sign_magnitude a Ha) as Hba.
  pose proof (f64_bits_sign_magnitude b Hb) as Hbb.
  pose proof (f64_neg_zero_iff a Ha) as Hza.
  pose proof (f64_neg_zero_iff b Hb) as Hzb.
  change (2 ^ 52) with 4503599627370496 in *.
  change (2 ^ 63) with 9223372036854775808 in *.
  assert (Hkey : forall x, is_float64 x -> f64_isNaN x = false ->
    f64_key x = if f64_sign x
                then (if f64_magnitude x =? 0 then 0
                      else 9223372036854775807 - f64_magnitude x)
                else f64_magnitude x + 9223372036854775808).
  { intros x Hx Hnx. pose proof (f64_neg_zero_iff x Hx) as Hzx.
    destruct (f64_sign x) eqn:Hs, (Z.eqb_spec (f64_magnitude x) 0) as [Hm|Hm].
    - assert (x = f64_neg_zero) as -> by (apply Hzx; auto). reflexivity.
    - assert (Hne : x <> f64_neg_zero) by (intros E; apply Hzx in E; tauto).
      destruct (f64_key_rank x Hx Hnx Hne) as [-> _].
      unfold f64_rank. rewrite Hs.
      change (2 ^ 63) with 9223372036854775808. lia.
    - assert (Hne : x <> f64_neg_zero)
        by (intros E; apply Hzx in E; destruct E; discriminate).
      destruct (f64_key_rank x Hx Hnx Hne) as [-> _].
      unfold f64_rank. rewrite Hs, Hm.
      change (2 ^ 63) with 9223372036854775808. lia.
    - assert (Hne : x <> f64_neg_zero)
        by (intros E; apply Hzx in E; destruct E; discriminate).
      destruct (f64_key_rank x Hx Hnx Hne) as [-> _].
      unfold f64_rank. rewrite Hs.
      change (2 ^ 63) with 9223372036854775808. lia. }
  rewrite (Hkey a Ha Hna), (Hkey b Hb Hnb) in Henc.
  destruct a as [u], b as [w]. cbn [Float64bits] in *. f_equal.
  destruct (f64_sign {| Float64bits := u |}),
           (f64_sign {| Float64bits := w |});
    destruct (Z.eqb_spec (f64_magnitude {| Float64bits := u |}) 0);
    destruct (Z.eqb_spec (f64_magnitude {| Float64bits := w |}) 0); lia.
Qed.

Lemma AppendFloat64_injective_witness :
  is_float64 f64_minus_one /\ f64_isNaN f64_minus_one = false /\
  Encoding.AppendFloat64 [] f64_minus_one
    = Encoding.AppendFloat64 [] (Float64frombits 0xBFF0000000000000) /\
  f64_minus_one = Float64frombits 0xBFF0000000000000.
Proof.
  assert (H : is_float64 f64_minus_one)
    by (unfold is_float64, is_uint64; cbn; lia).
  split; [exact H|]. split; [reflexivity|]. split; [reflexivity|].
  exact (AppendFloat64_injective f64_minus_one
           (Float64frombits 0xBFF0000000000000) H H eq_refl eq_refl eq_refl).
Defined.

(** * Further properties of the base64 codec *)

(** X10. [AppendBase64] neither merges nor reorders byte strings: the
    encoding of [a] is below the encoding of [b] exactly when [a] is
    below [b], and equal encodings come from equal byte strings. *)
Theorem AppendBase64_order_iff (a b : list byte) :
  bytes_lt (fst (Encoding.AppendBase64 [] a)) (fst (Encoding.AppendBase64 [] b))
    = bytes_lt a b /\
  (fst (Encoding.AppendBase64 [] a) = fst (Encoding.AppendBase64 [] b) ->
   a = b).
Proof.
  rewrite !AppendBase64_Encode. cbn [fst app].
  assert (Hinj : Base64.Encode Encoding.base64Encoding a
                 = Base64.Encode Encoding.base64Encoding b -> a = b).
  { intros H. apply (f_equal (Base64.Decode Encoding.base64Encoding)) in H.
    rewrite !(Decode_Encode _ base64Encoding_decodes) in H. congruence. }
  split; [|exact Hinj].
  destruct (bytes_lt a b) eqn:Hab.
  - apply (Encode_increasing _ base64Encoding_increasing), Hab.
  - destruct (bytes_lt_total a b Hab) as [->|Hba].
    + apply bytes_lt_irrefl.
    + apply bytes_lt_asym.
      apply (Encode_increasing _ base64Encoding_increasing), Hba.
Qed.

Lemma encode_in_alphabet (alphabet : list byte) (d : Z) :
  length alphabet = 64%nat -> 0 <= d < 64 ->
  In (Base64.encode alphabet d) alphabet.
Proof.
  intros Hlen Hd. unfold Base64.encode. apply nth_In. lia.
Qed.

(** X11. [AppendBase64] keeps the buffer it is given and adds after it
    [EncodedLen(len(data))] bytes, that is 4 for every 3 bytes of data and
    2 or 3 for a remainder of 1 or 2, every one of them a character of the
    alphabet; it reports no error. *)
Theorem AppendBase64_shape (buf data : list byte) :
  exists enc,
    Encoding.AppendBase64 buf data = (buf ++ enc, None) /\
    Z.of_nat (length enc)
      = Z.of_nat (length data) / 3 * 4
        + (Z.of_nat (length data) mod 3 * 8 + 5) / 6 /\
    Forall (fun c => In c Encoding.base64Encoding) enc.
Proof.
  exists (Base64.Encode Encoding.base64Encoding data).
  split; [apply AppendBase64_Encode|]. split.
  - apply Encode_length.
  - rewrite Encode_digits. apply List.Forall_forall. intros c Hc.
    apply in_map_iff in Hc as (d & <- & Hd).
    apply encode_in_alphabet; [reflexivity|].
    pose proof (digits_range data) as Hr.
    rewrite List.Forall_forall in Hr. apply Hr, Hd.
Qed.

Lemma decode_from_corrupt (alphabet : list byte) (c : byte)
    (post : list byte) (pre : list byte) :
  Base64.decodeMap alphabet c = 255 ->
  byte.unsigned c <> 10 -> byte.unsigned c <> 13 ->
  Forall (fun x => Base64.decodeMap alphabet x <> 255 \/
                   byte.unsigned x = 10 \/ byte.unsigned x = 13) pre ->
  forall si dbuf out,
  snd (Base64.decode_from alphabet (pre ++ c :: post) si dbuf out)
  = Some (CorruptInputError (si + Z.of_nat (length pre))).
Proof.
  intros Hc H10 H13. induction pre as [|x pre IH]; intros Hpre si dbuf out.
  - cbn [app length Base64.decode_from]. rewrite Hc. cbn [Z.eqb negb].
    destruct (Z.eqb_spec (byte.unsigned c) 10); [lia|].
    destruct (Z.eqb_spec (byte.unsigned c) 13); [lia|].
    cbn. do 2 f_equal. lia.
  - inversion Hpre as [|? ? Hx Hrest]; subst.
    cbn [app Base64.decode_from].
    replace (si + Z.of_nat (length (x :: pre)))
      with ((si + 1) + Z.of_nat (length pre))
      by (cbn [length]; lia).
    destruct (Z.eqb_spec (Base64.decodeMap alphabet x) 255) as [He|Hne];
      cbn [negb].
    + destruct Hx as [Hx|[Hx|Hx]]; [contradiction| |]; rewrite Hx.
      * cbn. apply IH, Hrest.
      * cbn. apply IH, Hrest.
    + destruct dbuf as [|d0 [|d1 [|d2 [|d3 dbuf]]]]; apply IH, Hrest.
Qed.

(** X12. A byte that is neither in the alphabet nor a line break makes
    [DecodeBase64] fail: when every byte before it is a character of the
    alphabet or a line break, the error is [CorruptInputError] at the
    offset of that byte, whatever follows it. *)
Theorem DecodeBase64_corrupt_byte (dst pre post : list byte) (c : byte) :
  Base64.decodeMap Encoding.base64Encoding c = 255 ->
  byte.unsigned c <> 10 -> byte.unsigned c <> 13 ->
  Forall (fun x => Base64.decodeMap Encoding.base64Encoding x <> 255 \/
                   byte.unsigned x = 10 \/ byte.unsigned x = 13) pre ->
  snd (Encoding.DecodeBase64 dst (pre ++ c :: post))
  = Some (CorruptInputError (Z.of_nat (length pre))).
Proof.
  intros Hc H10 H13 Hpre. unfold Encoding.DecodeBase64, Base64.Decode.
  pose proof (decode_from_corrupt Encoding.base64Encoding c post pre
                Hc H10 H13 Hpre 0 [] []) as H.
  destruct (Base64.decode_from Encoding.base64Encoding (pre ++ c :: post)
              0 [] []) as [written err].
  cbn [snd] in *. exact H.
Qed.

Lemma DecodeBase64_corrupt_byte_witness :
  snd (Encoding.DecodeBase64 [] (list_byte_of_string "IL4i+abc"))
  = Some (CorruptInputError 4).
Proof.
  apply (DecodeBase64_corrupt_byte [] (list_byte_of_string "IL4i")
           (list_byte_of_string "abc") Byte.x2b).
  - reflexivity.
  - discriminate.
  - discriminate.
  - do 4 (apply List.Forall_cons; [left; discriminate|]).
    apply List.Forall_nil.
Defined.

(** * Further properties of the SELECT planner *)

Module PlannerFacts.
Import Stream Query QuerySpec.

Lemma Walk_no_tables :
  forall (e : Expr) (err : option error),
  Walk no_tables_callback e err
  = if mentions_table e then Some no_tables else err.
Proof.
  fix IH 1. intros e err. destruct e; cbn [Walk no_tables_callback mentions_table];
    try reflexivity.
  - apply IH.
  - rewrite !IH. destruct (mentions_table e1), (mentions_table e2); reflexivity.
  - revert err. induction args as [|a args IHa]; intros err; [reflexivity|].
    rewrite IH, IHa.
    destruct (mentions_table a); cbn [orb]; [|reflexivity].
    match goal with |- (if ?b then _ else _) = _ => destruct b end; reflexivity.
  - apply IH.
  - revert err. induction pairs as [|[k a] pairs IHp]; intros err; [reflexivity|].
    rewrite IH, IHp.
    destruct (mentions_table a); cbn [orb]; [|reflexivity].
    match goal with |- (if ?b then _ else _) = _ => destruct b end; reflexivity.
  - apply IH.
Qed.

Lemma no_tables_loop_spec (pes : list Expr) :
  no_tables_loop pes None
  = if existsb mentions_table pes then Some no_tables else None.
Proof.
  induction pes as [|e pes IH]; cbn [no_tables_loop existsb]; [reflexivity|].
  rewrite Walk_no_tables. destruct (mentions_table e); [reflexivity|].
  exact IH.
Qed.

Lemma group_by_block_accepted (g : Expr) (pes : list Expr) :
  Forall (fun pe => accepted g pe = true) pes ->
  group_by_loop g pes [] = (None, projected_aggregators pes).
Proof.
  intros Hall.
  destruct (QueryFacts.group_by_loop_spec g pes [])
    as [[_ Hloop]|(pre & x & post & aggs & Hpes & _ & Hx & _)].
  - exact Hloop.
  - rewrite Hpes in Hall. apply Forall_app in Hall as [_ Hall].
    apply Forall_cons in Hall as [Hacc _]. congruence.
Qed.

Section WithEvaluator.

Variable Eval : Expr -> Environment -> result Value.
Variable CastAsInteger : Value -> result Value.

(** X13. A SELECT without FROM whose projections pass the GROUP BY test
    (if there is a GROUP BY) is refused with [no tables specified] exactly
    when a path or a wildcard occurs somewhere in a projection, at any
    depth; otherwise the stages up to ORDER BY are planned, and the
    pipeline starts without a scan. *)
Theorem ToStream_no_tables (stmt : SelectStmt) :
  TableName stmt = "" ->
  (forall g, GroupByExpr stmt = Some g ->
             Forall (fun pe => accepted g pe = true) (ProjectionExprs stmt)) ->
  (existsb mentions_table (ProjectionExprs stmt) = true ->
   ToStream Eval CastAsInteger stmt = Err no_tables) /\
  (existsb mentions_table (ProjectionExprs stmt) = false ->
   exists s0, plan_through_order_by stmt = Ok s0 /\
              forall t, head s0 <> Some (SeqScan t)).
Proof.
  intros Ht Hgroup.
  unfold ToStream, plan_through_order_by, Pipe, Stream.New, Stream.nil.
  rewrite Ht, no_tables_loop_spec. cbn [String.eqb negb].
  destruct (existsb mentions_table (ProjectionExprs stmt));
    (split; [intros Hex; try discriminate Hex
            |intros Hex; try discriminate Hex]).
  - destruct (GroupByExpr stmt) as [g|].
    + rewrite (group_by_block_accepted g _ (Hgroup g eq_refl)). reflexivity.
    + destruct (0 <? length (aggregators_loop (ProjectionExprs stmt) []))%nat;
        reflexivity.
  - destruct (GroupByExpr stmt) as [g|].
    + rewrite (group_by_block_accepted g _ (Hgroup g eq_refl)).
      cbn [mbind result_bind]. eexists. split; [reflexivity|].
      intros t Hhead.
      destruct (WhereExpr stmt), (Distinct stmt), (OrderBy stmt);
        try destruct (Token_eqb (OrderByDirection stmt) DESC);
        discriminate Hhead.
    + destruct (0 <? length (aggregators_loop (ProjectionExprs stmt) []))%nat;
        cbn [mbind result_bind]; (eexists; split; [reflexivity|]);
        intros t Hhead;
        destruct (WhereExpr stmt), (Distinct stmt), (OrderBy stmt);
        try destruct (Token_eqb (OrderByDirection stmt) DESC);
        discriminate Hhead.
Qed.

(** X14. An error of the evaluator on the OFFSET or LIMIT expression, or
    of the cast of its numeric value to an integer, is what [ToStream]
    returns, unchanged: for OFFSET once the stages up to ORDER BY are
    planned, for LIMIT once the OFFSET block has gone through. *)
Theorem ToStream_offset_limit_errors (stmt : SelectStmt)
    (s0 : Stream.Stream) (err : error) :
  plan_through_order_by stmt = Ok s0 ->
  (forall e,
     OffsetExpr stmt = Some e ->
     Eval e empty_Environment = Err err \/
     (exists v, Eval e empty_Environment = Ok v /\
                IsNumber (Value_Type v) = true /\
                CastAsInteger v = Err err) ->
     ToStream Eval CastAsInteger stmt = Err err) /\
  (forall s1 e,
     plan_offset Eval CastAsInteger stmt s0 = Ok s1 ->
     LimitExpr stmt = Some e ->
     Eval e empty_Environment = Err err \/
     (exists v, Eval e empty_Environment = Ok v /\
                IsNumber (Value_Type v) = true /\
                CastAsInteger v = Err err) ->
     ToStream Eval CastAsInteger stmt = Err err).
Proof.
  intros H0. unfold ToStream. rewrite H0. cbn [mbind result_bind]. split.
  - intros e He [Hv|(v & Hv & Hn & Hc)]; unfold plan_offset;
      rewrite He, Hv; cbn [mbind result_bind]; [reflexivity|].
    rewrite Hn. cbn [negb]. rewrite Hc. reflexivity.
  - intros s1 e H1 He Hcase. rewrite H1. cbn [mbind result_bind].
    destruct Hcase as [Hv|(v & Hv & Hn & Hc)]; unfold plan_limit;
      rewrite He, Hv; cbn [mbind result_bind]; [reflexivity|].
    rewrite Hn. cbn [negb]. rewrite Hc. reflexivity.
Qed.

(** X15. [ToStream] does not panic as long as the evaluator and the cast
    do not, and the cast, when it succeeds, returns a value that holds an
    int64: the type assertion on that value is the only place where the
    planner itself could. *)
Theorem ToStream_no_panic (stmt : SelectStmt) :
  (forall e env, Eval e env <> Panic) ->
  (forall v, CastAsInteger v <> Panic) ->
  (forall v v', CastAsInteger v = Ok v' -> exists n, v' = IntegerV n) ->
  ToStream Eval CastAsInteger stmt <> Panic.
Proof.
  intros HEval HCast HInt.
  assert (Hcount : forall (mk : Z -> Operator) (fmt : string) e s,
    (Eval e empty_Environment ≫= fun v =>
       if negb (IsNumber (Value_Type v)) then
         Err (Errorf fmt [ArgType (Value_Type v)])
       else CastAsInteger v ≫= fun v => V_int64 v ≫= fun n =>
            Ok (Pipe s (mk n))) <> Panic).
  { intros mk fmt e s. pose proof (HEval e empty_Environment) as He.
    destruct (Eval e empty_Environment) as [v| |]; cbn [mbind result_bind];
      try congruence.
    destruct (IsNumber (Value_Type v)); cbn [negb]; try congruence.
    pose proof (HCast v) as Hc. pose proof (HInt v) as Hi.
    destruct (CastAsInteger v) as [v'| |]; cbn [mbind result_bind];
      try congruence.
    destruct (Hi v' eq_refl) as [n ->]. cbn. congruence. }
  unfold ToStream.
  destruct (plan_through_order_by stmt) as [s0| |] eqn:H0;
    cbn [mbind result_bind]; try congruence.
  - assert (H1 : plan_offset Eval CastAsInteger stmt s0 <> Panic).
    { unfold plan_offset. destruct (OffsetExpr stmt); [apply Hcount|congruence]. }
    destruct (plan_offset Eval CastAsInteger stmt s0) as [s1| |];
      cbn [mbind result_bind]; try congruence.
    assert (H2 : plan_limit Eval CastAsInteger stmt s1 <> Panic).
    { unfold plan_limit. destruct (LimitExpr stmt); [apply Hcount|congruence]. }
    destruct (plan_limit Eval CastAsInteger stmt s1) as [s2| |];
      cbn [mbind result_bind]; congruence.
  - exfalso. revert H0. unfold plan_through_order_by.
    destruct (GroupByExpr stmt) as [g|].
    + destruct (group_by_loop g (ProjectionExprs stmt) []) as [[x|] aggs];
        cbn [mbind result_bind]; try discriminate.
      destruct (String.eqb (TableName stmt) "");
        [destruct (no_tables_loop (ProjectionExprs stmt) None)|];
        discriminate.
    + destruct (0 <? length (aggregators_loop (ProjectionExprs stmt) []))%nat;
        cbn [mbind result_bind];
        (destruct (String.eqb (TableName stmt) "");
          [destruct (no_tables_loop (ProjectionExprs stmt) None)|]);
        discriminate.
Qed.

End WithEvaluator.

Lemma Eval_constant_no_panic (e : Expr) (env : Environment) :
  Eval_constant e env <> Panic.
Proof. destruct e; discriminate. Qed.

Lemma CastAsInteger_integer_no_panic (v : Value) :
  CastAsInteger_integer v <> Panic.
Proof. destruct v; discriminate. Qed.

Lemma CastAsInteger_integer_int64 (v v' : Value) :
  CastAsInteger_integer v = Ok v' -> exists n, v' = IntegerV n.
Proof. destruct v; try discriminate. intros [= <-]. eauto. Qed.

Lemma ToStream_no_tables_witness :
  TableName select_count_without_from = "" /\
  ToStream Eval_constant CastAsInteger_integer select_count_without_from
    = Err no_tables.
Proof.
  split; [reflexivity|].
  apply (proj1 (ToStream_no_tables Eval_constant CastAsInteger_integer
                  select_count_without_from eq_refl
                  ltac:(intros g Hg; discriminate Hg))).
  reflexivity.
Defined.

Lemma ToStream_offset_limit_errors_witness :
  plan_through_order_by select_double_limit
    = Ok [SeqScan "t"; Project (ProjectionExprs select_double_limit)] /\
  ToStream Eval_constant CastAsInteger_integer select_double_limit
    = Err (errors_New "cannot cast to integer").
Proof.
  split; [reflexivity|].
  apply (proj2 (ToStream_offset_limit_errors Eval_constant
                  CastAsInteger_integer select_double_limit _
                  (errors_New "cannot cast to integer") eq_refl)
               _ _ eq_refl eq_refl).
  right. eexists. repeat split.
Defined.

Lemma ToStream_no_panic_witness :
  ToStream Eval_constant CastAsInteger_integer select_grouped <> Panic.
Proof.
  apply (ToStream_no_panic Eval_constant CastAsInteger_integer select_grouped
           Eval_constant_no_panic CastAsInteger_integer_no_panic
           CastAsInteger_integer_int64).
Defined.

Lemma ToStream_returns_witness :
  exists ss,
    ToStream Eval_constant CastAsInteger_integer select_grouped = Ok ss.
Proof.
  apply (QueryFacts.ToStream_returns Eval_constant CastAsInteger_integer
           select_grouped).
  - intros g [= <-]. repeat (apply List.Forall_cons; [reflexivity|]).
    apply List.Forall_nil.
  - discriminate.
  - intros e [= <-]. exists 2. reflexivity.
  - intros e [= <-]. exists 10. reflexivity.
Defined.

End PlannerFacts.

(** * Further properties of the INSERT parser *)

Module ParserValuesFacts.
Import Parser ParserSpec ParserValues.

Lemma Token_eqb_eq (a b : Token) : Token_eqb a b = true <-> a = b.
Proof. destruct a, b; cbn; split; congruence. Qed.

(** The KVPairs document of a tuple under a field list. *)
Lemma tuple_document (Parser : Type)
    (parseExprList : Token -> Token -> Parser -> result (list Expr) * Parser)
    (fields : list string) (p p' : Parser) (tuple : list Expr) :
  parseExprList LPAREN RPAREN p = (Ok tuple, p') ->
  parseExprListWithFields Parser parseExprList fields p
  = if (length fields =? length tuple)%nat
    then (Ok {| Pairs := zip_with pair_of fields tuple |}, p')
    else (Err (Errorf values_format
                 [ArgInt (Z.of_nat (length tuple));
                  ArgInt (Z.of_nat (length fields))]), p').
Proof.
  intros Hparse. unfold parseExprListWithFields. rewrite Hparse.
  destruct (Nat.eqb_spec (length fields) (length tuple)) as [Heq|Hne];
    [|reflexivity].
  cbn [negb].
  pose proof (ParserFacts.fill_loop_spec fields tuple Heq
                (length tuple) 0%nat eq_refl) as Hfill.
  rewrite !take_0 in Hfill. cbn [zip_with app] in Hfill.
  rewrite Hfill. reflexivity.
Qed.

Section WithScanner.

Variable Parser : Type.
Variable parseExprList : Token -> Token -> Parser -> result (list Expr) * Parser.
Variable ScanIgnoreWhitespace : Parser -> (Token * Pos * string) * Parser.
Variable Unscan : Parser -> Parser.
Variable parseParam : Parser -> result (option Expr) * Parser.
Variable ParseDocument : Parser -> result Expr * Parser.

Local Abbreviation documents_loop :=
  (documents_loop Parser parseExprList ScanIgnoreWhitespace Unscan).
Local Abbreviation literals_loop :=
  (literals_loop Parser ScanIgnoreWhitespace Unscan parseParam ParseDocument).
Local Abbreviation parseValues :=
  (parseValues Parser parseExprList ScanIgnoreWhitespace Unscan parseParam
     ParseDocument).
Local Abbreviation comma_tuples :=
  (comma_tuples Parser parseExprList ScanIgnoreWhitespace).
Local Abbreviation comma_literals :=
  (comma_literals Parser ScanIgnoreWhitespace Unscan parseParam ParseDocument).

Lemma documents_loop_run (fields : list string) (p p' : Parser)
    (tuples : list (list Expr)) :
  comma_tuples p tuples p' ->
  Forall (fun t => length t = length fields) tuples ->
  forall docs k,
  documents_loop (length tuples + k) fields p docs
  = documents_loop k fields p' (docs ++ map (document_of fields) tuples).
Proof.
  induction 1 as [p|p p1 p2 p' pos lit tuple tuples Hscan Hparse _ IH];
    intros Hall docs k.
  - cbn. rewrite app_nil_r. reflexivity.
  - apply Forall_cons in Hall as [Hlen Hall].
    cbn [length Nat.add ParserValues.documents_loop map]. rewrite Hscan.
    cbn [Token_eqb negb].
    rewrite (tuple_document _ _ fields p1 p2 tuple Hparse).
    rewrite <- Hlen, Nat.eqb_refl. rewrite (IH Hall), <- app_assoc.
    reflexivity.
Qed.

Lemma literals_loop_run (p p' : Parser) (lits : list Expr) :
  comma_literals p lits p' ->
  forall docs k,
  literals_loop (length lits + k) p docs = literals_loop k p' (docs ++ lits).
Proof.
  induction 1 as [p|p p1 p2 p' pos lit doc lits Hscan Hparse _ IH];
    intros docs k.
  - cbn. rewrite app_nil_r. reflexivity.
  - cbn [length Nat.add ParserValues.literals_loop]. rewrite Hscan.
    cbn [Token_eqb negb]. rewrite Hparse, IH, <- app_assoc. reflexivity.
Qed.

(** X16. With a field list, a VALUES clause of tuples that all have as
    many expressions as there are fields gives one KVPairs document per
    tuple, in order, each pairing the fields with the expressions of its
    tuple; the token after the last tuple, the first that is not a comma,
    is given back to the scanner.  One round of the loop per tuple and
    one for that token is all the fuel it takes. *)
Theorem parseValues_tuples (fields : list string) (p p1 p2 p3 : Parser)
    (tuple : list Expr) (tuples : list (list Expr))
    (tok : Token) (pos : Pos) (lit : string) (fuel : nat) :
  fields <> [] ->
  parseExprList LPAREN RPAREN p = (Ok tuple, p1) ->
  comma_tuples p1 tuples p2 ->
  ScanIgnoreWhitespace p2 = ((tok, pos, lit), p3) ->
  tok <> COMMA ->
  Forall (fun t => length t = length fields) (tuple :: tuples) ->
  (length tuples < fuel)%nat ->
  parseValues fuel fields p
  = Some (Ok (map (fun t => PairsDoc (document_of fields t)) (tuple :: tuples)),
          Unscan p3).
Proof.
  intros Hfields Hfirst Hrun Hscan Htok Hall Hfuel.
  apply Forall_cons in Hall as [Hlen Hall].
  unfold ParserValues.parseValues, ParserValues.parseDocumentsWithFields.
  destruct fields as [|f fields]; [congruence|].
  change (0 <? length (f :: fields))%nat with true. cbv iota.
  rewrite (tuple_document _ _ _ p p1 tuple Hfirst).
  rewrite <- Hlen, Nat.eqb_refl.
  replace fuel with (length tuples + S (fuel - length tuples - 1))%nat by lia.
  rewrite (documents_loop_run _ p1 p2 tuples Hrun Hall).
  cbn [ParserValues.documents_loop]. rewrite Hscan.
  destruct (Token_eqb tok COMMA) eqn:He;
    [apply Token_eqb_eq in He; contradiction|].
  cbn [negb app map]. rewrite map_map. reflexivity.
Qed.

(** X17. With a field list, the first tuple of a VALUES clause that has
    not as many expressions as there are fields ends the parse with the
    error [%d values for %d fields] on its length and the number of
    fields, whatever documents the tuples before it gave. *)
Theorem parseValues_short_tuple (fields : list string)
    (p p1 p2 p3 p4 : Parser) (tuple bad : list Expr)
    (tuples : list (list Expr)) (pos : Pos) (lit : string) (fuel : nat) :
  fields <> [] ->
  parseExprList LPAREN RPAREN p = (Ok tuple, p1) ->
  comma_tuples p1 tuples p2 ->
  Forall (fun t => length t = length fields) (tuple :: tuples) ->
  ScanIgnoreWhitespace p2 = ((COMMA, pos, lit), p3) ->
  parseExprList LPAREN RPAREN p3 = (Ok bad, p4) ->
  length bad <> length fields ->
  (length tuples < fuel)%nat ->
  parseValues fuel fields p
  = Some (Err (Errorf values_format
                 [ArgInt (Z.of_nat (length bad));
                  ArgInt (Z.of_nat (length fields))]), p4).
Proof.
  intros Hfields Hfirst Hrun Hall Hscan Hbad Hne Hfuel.
  apply Forall_cons in Hall as [Hlen Hall].
  unfold ParserValues.parseValues, ParserValues.parseDocumentsWithFields.
  destruct fields as [|f fields]; [congruence|].
  change (0 <? length (f :: fields))%nat with true. cbv iota.
  rewrite (tuple_document _ _ _ p p1 tuple Hfirst).
  rewrite (proj2 (Nat.eqb_eq _ _) (eq_sym Hlen)).
  replace fuel with (length tuples + S (fuel - length tuples - 1))%nat by lia.
  rewrite (documents_loop_run _ p1 p2 tuples Hrun Hall).
  cbn [ParserValues.documents_loop]. rewrite Hscan. cbn [Token_eqb negb].
  rewrite (tuple_document _ _ _ p3 p4 bad Hbad).
  destruct (Nat.eqb_spec (length (f :: fields)) (length bad)) as [Heq|_];
    [congruence|].
  reflexivity.
Qed.

(** X18. Without a field list, a VALUES clause is a comma-separated list
    of parameters and documents: they are returned as they were read, in
    order, no arity being checked, and the first token that is not a
    comma is given back to the scanner. *)
Theorem parseValues_documents (p p1 p2 p3 : Parser)
    (doc : Expr) (docs : list Expr)
    (tok : Token) (pos : Pos) (lit : string) (fuel : nat) :
  parseParamOrDocument Parser Unscan parseParam ParseDocument p = (Ok doc, p1) ->
  comma_literals p1 docs p2 ->
  ScanIgnoreWhitespace p2 = ((tok, pos, lit), p3) ->
  tok <> COMMA ->
  (length docs < fuel)%nat ->
  parseValues fuel [] p = Some (Ok (map DocOrParam (doc :: docs)), Unscan p3).
Proof.
  intros Hfirst Hrun Hscan Htok Hfuel.
  unfold ParserValues.parseValues, ParserValues.parseLiteralDocOrParamList.
  change (0 <? length (@nil string))%nat with false. cbv iota.
  rewrite Hfirst.
  replace fuel with (length docs + S (fuel - length docs - 1))%nat by lia.
  rewrite (literals_loop_run p1 p2 docs Hrun).
  cbn [ParserValues.literals_loop]. rewrite Hscan.
  destruct (Token_eqb tok COMMA) eqn:He;
    [apply Token_eqb_eq in He; contradiction|].
  reflexivity.
Qed.

End WithScanner.

Local Abbreviation cut_comma_tuples :=
  (comma_tuples cut_parser cut_parseExprList cut_Scan).

Lemma parseValues_tuples_witness :
  parseValues cut_parser cut_parseExprList cut_Scan cut_Unscan cut_parseParam
    cut_ParseDocument 2 ["a"; "b"] two_tuples
  = Some (Ok [PairsDoc {| Pairs := [pair_of "a" one; pair_of "b" two] |};
              PairsDoc {| Pairs := [pair_of "a" three; pair_of "b" one] |}],
          {| rest := [IToken RETURNING]; last := None |}).
Proof.
  apply (parseValues_tuples cut_parser cut_parseExprList cut_Scan cut_Unscan
           cut_parseParam cut_ParseDocument ["a"; "b"] two_tuples
           {| rest := [IToken COMMA; ITuple [three; one]; IToken RETURNING];
              last := None |}
           {| rest := [IToken RETURNING]; last := None |}
           {| rest := []; last := Some RETURNING |}
           [one; two] [[three; one]] RETURNING
           {| Line := 0; Char := 0 |} "" 2).
  - discriminate.
  - reflexivity.
  - eapply comma_tuples_cons; [reflexivity|reflexivity|apply comma_tuples_nil].
  - reflexivity.
  - discriminate.
  - repeat (apply List.Forall_cons; [reflexivity|]). apply List.Forall_nil.
  - cbn. lia.
Defined.

Lemma parseValues_short_tuple_witness :
  parseValues cut_parser cut_parseExprList cut_Scan cut_Unscan cut_parseParam
    cut_ParseDocument 1 ["a"; "b"] short_second_tuple
  = Some (Err (Errorf values_format [ArgInt 1; ArgInt 2]),
          {| rest := []; last := None |}).
Proof.
  apply (parseValues_short_tuple cut_parser cut_parseExprList cut_Scan
           cut_Unscan cut_parseParam cut_ParseDocument ["a"; "b"]
           short_second_tuple
           {| rest := [IToken COMMA; ITuple [three]]; last := None |}
           {| rest := [IToken COMMA; ITuple [three]]; last := None |}
           {| rest := [ITuple [three]]; last := Some COMMA |}
           {| rest := []; last := None |}
           [one; two] [three] [] {| Line := 0; Char := 0 |} "" 1).
  - discriminate.
  - reflexivity.
  - apply comma_tuples_nil.
  - repeat (apply List.Forall_cons; [reflexivity|]). apply List.Forall_nil.
  - reflexivity.
  - reflexivity.
  - discriminate.
  - cbn. lia.
Defined.

Lemma parseValues_documents_witness :
  parseValues cut_parser cut_parseExprList cut_Scan cut_Unscan cut_parseParam
    cut_ParseDocument 2 [] two_documents
  = Some (Ok [DocOrParam (KVPairsExpr [("a", one)]);
              DocOrParam (KVPairsExpr [("a", two)])],
          {| rest := []; last := None |}).
Proof.
  apply (parseValues_documents cut_parser cut_parseExprList cut_Scan
           cut_Unscan cut_parseParam cut_ParseDocument two_documents
           {| rest := [IToken COMMA; IDocument (KVPairsExpr [("a", two)])];
              last := None |}
           {| rest := []; last := None |}
           {| rest := []; last := None |}
           (KVPairsExpr [("a", one)]) [KVPairsExpr [("a", two)]]
           ILLEGAL {| Line := 0; Char := 0 |} "" 2).
  - reflexivity.
  - eapply comma_literals_cons;
      [reflexivity|reflexivity|apply comma_literals_nil].
  - reflexivity.
  - discriminate.
  - cbn. lia.
Defined.

End ParserValuesFacts.
